(** * keepTrace: the traceback cleaner of [keepTrace/__init__.py]

    A shallow embedding of [_Cleaner] (its [__init__], [clean],
    [clean_traceback_types] and [clean_fallback]) and of [_stub], with the
    properties of the cleaning engine stated over it.

    The live Python object graph is a finite snapshot [heap]: a list of
    objects, the identity [id(obj)] of an object being its index.  An object
    is described by what the cleaner can observe of it: [type(obj)],
    [bool(obj)], [repr(obj)], [dir(obj)] with [getattr], and the items,
    elements or text it holds.  Observations that run user code ([repr],
    [getattr], the external pickler, [str] of an exception) may raise.

    [self.seen] and the attribute dictionaries [dct] that the cleaner
    allocates and later mutates are the [state] threaded through a state
    and exception monad. *)

From stdpp Require Import gmap strings list pretty.
From Stdlib Require Import ZArith.

Set Warnings "-register-all,-clear-no-such-hyp".

Local Open Scope Z_scope.
Local Open Scope string_scope.

(** ** Python values as the cleaner observes them *)

(** [type(obj)].  [types.LambdaType] is [types.FunctionType]. *)
Inductive pytype :=
| TracebackType | FrameType | CodeType
| DictType | ListType | TupleType | SetType
| FunctionType | MethodType | BuiltinFunctionType
| NoneType | BoolType | IntType | FloatType | BytesType | StrType
| FrozensetType
| ModuleType
| OtherType (name : string).

Global Instance pytype_eq_dec : EqDecision pytype.
Proof. solve_decision. Defined.

(** Exception classes.  [BaseOnly] stands for the classes that derive from
    [BaseException] but not from [Exception] ([KeyboardInterrupt],
    [SystemExit], [GeneratorExit]). *)
Inductive exc_class :=
| AttributeError | KeyError | TypeError | RecursionError | UserWarning
| OtherException (name : string)
| BaseOnly (name : string).

Global Instance exc_class_eq_dec : EqDecision exc_class.
Proof. solve_decision. Defined.

(** [isinstance(err, Exception)] *)
Definition is_Exception (c : exc_class) : bool :=
  match c with BaseOnly _ => false | _ => true end.

(** An exception instance: its class and what [str(err)] does.  [__str__]
    is code of the exception's class: it returns the text, or it raises in
    turn (on Python 2, [str] of an exception with a non-ASCII [unicode]
    message raises [UnicodeEncodeError]). *)
Inductive pyexc :=
| PyExc (cls : exc_class) (text : string)       (* [str(err)] is [text] *)
| PyExcNoStr (cls : exc_class) (err : pyexc).   (* [str(err)] raises [err] *)

Definition exc_cls (e : pyexc) : exc_class :=
  match e with PyExc c _ | PyExcNoStr c _ => c end.

(** The result of an observation that may raise. *)
Inductive result (A : Type) :=
| Val (a : A)
| Err (e : pyexc).
Arguments Val {A} a.
Arguments Err {A} e.

(** [str(err)] *)
Definition exc_str (e : pyexc) : result string :=
  match e with PyExc _ text => Val text | PyExcNoStr _ err => Err err end.

(** What an object holds besides its attributes. *)
Inductive payload :=
| PNothing
| PStr (s : string)                    (* the text of a [str] *)
| PItems (kvs : list (nat * nat))      (* [obj.items()] of a mapping *)
| PElems (xs : list nat).              (* iteration over a sequence or set *)

Record pyobj := PyObj {
  ob_type : pytype;                          (* type(obj) *)
  ob_bool : bool;                            (* bool(obj) *)
  ob_repr : result string;                   (* repr(obj) *)
  ob_attrs : list (string * result nat);     (* dir(obj), and getattr on each *)
  ob_data : payload
}.

Definition heap := list pyobj.

(** The [None] singleton; an identity outside the snapshot reads as it. *)
Definition none_obj : pyobj :=
  PyObj NoneType false (Val "None") [] PNothing.

Definition deref (hp : heap) (i : nat) : pyobj := default none_obj (hp !! i).

(** What the host interpreter provides. *)
Record host := Host {
  getrecursionlimit : Z;               (* sys.getrecursionlimit() *)
  abspath : string → string;           (* os.path.abspath *)
  stdlib_dir : string;                 (* os.path.dirname(types.__file__) *)
  python2 : bool;                      (* [import copy_reg] succeeds *)
  pickle_dispatch : list (pytype * string)
    (* the dispatch table of the pure-Python pickler, [pickle.Pickler.dispatch]
       on Python 2 and [pickle._Pickler.dispatch] on Python 3: each type with
       the [__name__] of the function that saves it *)
}.

(** ** Representations produced by the cleaner *)

(** [Mock i] is the instance [_call(_mock, dct)] built for the object of
    identity [i]; its dictionary [dct] lives in the state under [i], where the
    cleaner goes on mutating it (an object is given at most one such
    dictionary per pass, since it is memoized together with it).
    [Original i] is the live object itself, kept by reference. *)
Inductive rep :=
| Text (s : string)
| Original (i : nat)
| PyNone
| Stub
| Import (name : rep)
| FromImport (module name : string)
| ObjectClass
| Mock (i : nat)
| Mapping (kvs : list (rep * rep))
| Sequence (t : pytype) (xs : list rep)
| SafeRestore (data : string) (rp : string).

(** A Python [dict] with string keys, in insertion order. *)
Abbreviation pydict := (list (string * rep)).

Fixpoint dict_set (k : string) (v : rep) (d : pydict) : pydict :=
  match d with
  | [] => [(k, v)]
  | (k', v') :: d' =>
      if decide (k' = k) then (k, v) :: d' else (k', v') :: dict_set k v d'
  end.

Fixpoint dict_get (k : string) (d : pydict) : option rep :=
  match d with
  | [] => None
  | (k', v') :: d' => if decide (k' = k) then Some v' else dict_get k d'
  end.

Definition dict_keys (d : pydict) : list string := d.*1.

(** ** The state and exception monad *)

Record state := State {
  seen : gmap nat rep;          (* self.seen *)
  dcts : gmap nat pydict        (* the [dct] of every mock built so far *)
}.

Definition empty_state : state := State ∅ ∅.

(** [Diverge] is a loop that would not stop; it is not a Python exception and
    nothing catches it. *)
Inductive outcome (A : Type) :=
| Ok (a : A) (s : state)
| Raise (e : pyexc) (s : state)
| Diverge.
Arguments Ok {A} a s.
Arguments Raise {A} e s.
Arguments Diverge {A}.

Definition M (A : Type) : Type := state → outcome A.

Definition ret {A} (a : A) : M A := λ s, Ok a s.

Definition bind {A B} (m : M A) (f : A → M B) : M B :=
  λ s, match m s with
       | Ok a s' => f a s'
       | Raise e s' => Raise e s'
       | Diverge => Diverge
       end.

Global Instance M_ret : MRet M := @ret.
Global Instance M_bind : MBind M := λ A B f m, bind m f.

Definition raise {A} (e : pyexc) : M A := λ s, Raise e s.

Definition diverge {A} : M A := λ _, Diverge.

(** [try: m  except Exception as err: handler err] *)
Definition try_except {A} (m : M A) (handler : pyexc → M A) : M A :=
  λ s, match m s with
       | Raise e s' =>
           if is_Exception (exc_cls e) then handler e s' else Raise e s'
       | o => o
       end.

Definition lift {A} (r : result A) : M A :=
  match r with Val a => ret a | Err e => raise e end.

(** [self.seen.get(i)] *)
Definition seen_get (i : nat) : M (option rep) := λ s, Ok (seen s !! i) s.

(** [self.seen[i] = r] *)
Definition seen_set (i : nat) (r : rep) : M unit :=
  λ s, Ok () (State (<[i := r]> (seen s)) (dcts s)).

(** [dct = {...}] for the mock of [i] *)
Definition dct_new (i : nat) (d : pydict) : M unit :=
  λ s, Ok () (State (seen s) (<[i := d]> (dcts s))).

(** [d[k] = v], where [d] is the dictionary of the mock of [i], or, for
    [None], the throw-away [{}] a chain walk starts from. *)
Definition dct_setitem (d : option nat) (k : string) (v : rep) : M unit :=
  λ s, match d with
       | Some i => Ok () (State (seen s) (alter (dict_set k v) i (dcts s)))
       | None => Ok () s
       end.

(** ** Observations on the heap *)

Section Observe.
Variable hp : heap.

Definition type (obj : nat) : pytype := ob_type (deref hp obj).
Definition truthy (obj : nat) : bool := ob_bool (deref hp obj).
Definition repr (obj : nat) : result string := ob_repr (deref hp obj).
Definition dir (obj : nat) : list string := (ob_attrs (deref hp obj)).*1.

Fixpoint assoc {A} (k : string) (l : list (string * A)) : option A :=
  match l with
  | [] => None
  | (k', a) :: l' => if decide (k' = k) then Some a else assoc k l'
  end.

Definition getattr (obj : nat) (name : string) : result nat :=
  match assoc name (ob_attrs (deref hp obj)) with
  | Some r => r
  | None => Err (PyExc AttributeError ("object has no attribute '" +:+ name +:+ "'"))
  end.

(** [hasattr]: on Python 3 only an [AttributeError] means "no"; on Python 2
    ([py2]) every [Exception] does. *)
Definition hasattr (py2 : bool) (obj : nat) (name : string) : result bool :=
  match getattr obj name with
  | Val _ => Val true
  | Err e =>
      if decide (exc_cls e = AttributeError) then Val false
      else if py2 && is_Exception (exc_cls e) then Val false
      else Err e
  end.

(** [obj.items()] *)
Definition items (obj : nat) : result (list (nat * nat)) :=
  match ob_data (deref hp obj) with
  | PItems kvs => Val kvs
  | _ => Err (PyExc AttributeError "object has no attribute 'items'")
  end.

(** [iter(obj)] *)
Definition elems (obj : nat) : result (list nat) :=
  match ob_data (deref hp obj) with
  | PElems xs => Val xs
  | _ => Err (PyExc TypeError "object is not iterable")
  end.

(** [obj.startswith(prefix)], a [str] method *)
Definition startswith (obj : nat) (pre : string) : result bool :=
  match ob_data (deref hp obj) with
  | PStr s => Val (String.prefix pre s)
  | _ => Err (PyExc AttributeError "object has no attribute 'startswith'")
  end.

(** the text of [obj] where a path is expected *)
Definition fspath (obj : nat) : result string :=
  match ob_data (deref hp obj) with
  | PStr s => Val s
  | _ => Err (PyExc TypeError "expected str, bytes or os.PathLike object")
  end.
End Observe.

(** ** [_Cleaner] *)

(** [STD_TYPES = [k for k, v in dispatch.items() if v.__name__ not in (...)]]:
    the types of the host's dispatch table, but those saved by reference
    ([save_global], and [save_inst] on Python 2, [save_type] on Python 3). *)
Definition STD_TYPES (hst : host) : list pytype :=
  let skipped :=
    if python2 hst then ["save_global"; "save_inst"]
    else ["save_global"; "save_type"] in
  (filter (λ kv, kv.2 ∉ skipped) (pickle_dispatch hst)).*1.
Definition SEQ_TYPES : list pytype := [ListType; TupleType; SetType].
Definition FUNC_TYPES : list pytype :=
  [FunctionType; MethodType; FunctionType; BuiltinFunctionType].
Definition TRACEBACK_TYPES : list pytype := [TracebackType; FrameType; CodeType].

Record Cleaner := MkCleaner {
  pickler : option (nat → result string);    (* self.pickler *)
  limit : Z                                  (* self.limit *)
}.

(** [int(math.sqrt(sys.getrecursionlimit()))] *)
Definition default_limit (hst : host) : Z := Z.sqrt (getrecursionlimit hst).

(** [_Cleaner.__init__]; [self.seen = {}] is [empty_state].  The argument
    [limit] is [None] or an integer, and [limit or ...] takes the default for
    both [None] and [0]. *)
Definition Cleaner_init (hst : host) (pickler : option (nat → result string))
    (limit : option Z) : Cleaner :=
  MkCleaner pickler
    (match limit with
     | Some l => if decide (l = 0) then default_limit hst else l
     | None => default_limit hst
     end).

Section Clean.
Variables (hst : host) (hp : heap) (self : Cleaner).

(** [self.clean], entered one Python call deeper *)
Variable clean : nat → Z → M rep.

(** [self.seen[obj_id]] *)
Definition seen_item (obj : nat) : M rep :=
  r ← seen_get obj;
  match r with
  | Some r => mret r
  | None => raise (PyExc KeyError (pretty obj))
  end.

(** [{"_repr": repr(obj), "_mock": mock}] *)
Definition mock_dict (rp : string) (mock : rep) : pydict :=
  [("_repr", Text rp); ("_mock", mock)].

(** [dct.update((at, getattr(obj, at)) for at in dir(obj) if at.startswith(pre))];
    [dict.update] stores the pairs one by one as the generator yields them. *)
Fixpoint update_raw (obj : nat) (pre : string) (names : list string) : M unit :=
  match names with
  | [] => mret ()
  | name :: names =>
      if String.prefix pre name then
        v ← lift (getattr hp obj name);
        dct_setitem (Some obj) name (Original v);;
        update_raw obj pre names
      else update_raw obj pre names
  end.

(** [{k: self.clean(v, depth) for k, v in items if not k.startswith("__")}] *)
Fixpoint clean_globals (kvs : list (nat * nat)) (depth : Z) : M (list (rep * rep)) :=
  match kvs with
  | [] => mret []
  | (k, v) :: kvs =>
      dunder ← lift (startswith hp k "__");
      if dunder : bool then clean_globals kvs depth
      else
        r ← clean v depth;
        rs ← clean_globals kvs depth;
        mret ((Original k, r) :: rs)
  end.

(** [{k: self.clean(v, depth) for k, v in items}] *)
Fixpoint clean_locals (kvs : list (nat * nat)) (depth : Z) : M (list (rep * rep)) :=
  match kvs with
  | [] => mret []
  | (k, v) :: kvs =>
      r ← clean v depth;
      rs ← clean_locals kvs depth;
      mret ((Original k, r) :: rs)
  end.

(** [{self.clean(k, depth): self.clean(v, depth) for k, v in items}] *)
Fixpoint clean_items (kvs : list (nat * nat)) (depth : Z) : M (list (rep * rep)) :=
  match kvs with
  | [] => mret []
  | (k, v) :: kvs =>
      rk ← clean k depth;
      rv ← clean v depth;
      rs ← clean_items kvs depth;
      mret ((rk, rv) :: rs)
  end.

(** [self.clean(o, depth) for o in obj] *)
Fixpoint clean_elems (xs : list nat) (depth : Z) : M (list rep) :=
  match xs with
  | [] => mret []
  | o :: xs =>
      r ← clean o depth;
      rs ← clean_elems xs depth;
      mret (r :: rs)
  end.

(** One iteration of the traceback loop on a link that is not memoized:
    from [dct = {...}] to [trace = trace.tb_next], whose value it returns.
    [last_trace] is the dictionary of the previous link, [None] for the
    initial [{}]. *)
Definition trace_link (trace : nat) (last_trace : option nat) (depth : Z) : M nat :=
  rp ← lift (repr hp trace);
  dct_new trace (mock_dict rp (FromImport "types" "TracebackType"));;
  seen_set trace (Mock trace);;
  dct_setitem last_trace "tb_next" (Mock trace);;
  update_raw trace "tb_" (dir hp trace);;
  frame ← lift (getattr hp trace "tb_frame");
  r ← clean frame (depth + 1);
  dct_setitem (Some trace) "tb_frame" r;;
  lift (getattr hp trace "tb_next").

(** [for _ in xrange(self.limit): ...], with [k] iterations left.  Returns
    the [last_trace] the loop ends with. *)
Fixpoint trace_loop (k : nat) (trace : nat) (last_trace : option nat)
    (depth : Z) : M (option nat) :=
  match k with
  | O => mret last_trace
  | S k =>
      if negb (truthy hp trace) then mret last_trace
      else
        memo ← seen_get trace;
        match memo with
        | Some r => dct_setitem last_trace "tb_next" r;; mret last_trace
        | None =>
            next ← trace_link trace last_trace depth;
            trace_loop k next (Some trace) depth
        end
  end.

(** One iteration of the frame loop on a frame that is not memoized: from
    [dct = {...}] to [frame = frame.f_back], whose value it returns. *)
Definition frame_link (frame : nat) (last_frame : option nat) (depth : Z) : M nat :=
  rp ← lift (repr hp frame);
  dct_new frame (mock_dict rp (FromImport "types" "FrameType"));;
  seen_set frame (Mock frame);;
  dct_setitem last_frame "f_back" (Mock frame);;
  update_raw frame "f_" (dir hp frame);;
  dct_setitem (Some frame) "f_builtins" (FromImport "types" "__builtins__");;
  globs ← lift (getattr hp frame "f_globals");
  gitems ← lift (items hp globs);
  g ← clean_globals gitems depth;
  dct_setitem (Some frame) "f_globals" (Mapping g);;
  locs ← lift (getattr hp frame "f_locals");
  litems ← lift (items hp locs);
  l ← clean_locals litems depth;
  dct_setitem (Some frame) "f_locals" (Mapping l);;
  tr ← lift (getattr hp frame "f_trace");
  t ← clean tr depth;
  dct_setitem (Some frame) "f_trace" t;;
  code ← lift (getattr hp frame "f_code");
  c ← clean code (depth + 1);
  dct_setitem (Some frame) "f_code" c;;
  lift (getattr hp frame "f_back").

(** [while frame: ...]; the loop has no counter of its own in the source,
    and [fuel] only makes the recursion structural: every iteration that
    spends fuel memoizes an object of the snapshot that was not memoized,
    so [length hp] is never used up ([frame_loop_ok] below). *)
Fixpoint frame_loop (fuel : nat) (frame : nat) (last_frame : option nat)
    (depth : Z) : M unit :=
  if negb (truthy hp frame) then mret ()
  else
    memo ← seen_get frame;
    match memo with
    | Some r => dct_setitem last_frame "f_back" r
    | None =>
        match fuel with
        | O => diverge
        | S fuel =>
            back ← frame_link frame last_frame depth;
            frame_loop fuel back (Some frame) depth
        end
    end.

(** [_Cleaner.clean_traceback_types] *)
Definition clean_traceback_types (obj : nat) (depth : Z) : M rep :=
  if decide (type hp obj = TracebackType) then
    last_trace ← trace_loop (Z.to_nat (limit self)) obj None depth;
    dct_setitem last_trace "tb_next" PyNone;;
    seen_item obj
  else if decide (type hp obj = FrameType) then
    frame_loop (length hp) obj None depth;;
    seen_item obj
  else
    rp ← lift (repr hp obj);
    dct_new obj (mock_dict rp (FromImport "types" "CodeType"));;
    seen_set obj (Mock obj);;
    update_raw obj "co_" (dir hp obj);;
    consts ← lift (getattr hp obj "co_consts");
    c ← clean consts (depth + 2);
    dct_setitem (Some obj) "co_consts" c;;
    filename ← lift (getattr hp obj "co_filename");
    path ← lift (fspath hp filename);
    dct_setitem (Some obj) "co_filename" (Text (abspath hst path));;
    mret (Mock obj).

(** [dct.update((at, self.clean(getattr(obj, at), depth)) for at in dir(obj)
    if not at.startswith("__"))] *)
Fixpoint update_cleaned (obj : nat) (names : list string) (depth : Z) : M unit :=
  match names with
  | [] => mret ()
  | name :: names =>
      if String.prefix "__" name then update_cleaned obj names depth
      else
        v ← lift (getattr hp obj name);
        r ← clean v depth;
        dct_setitem (Some obj) name r;;
        update_cleaned obj names depth
  end.

(** [_Cleaner.clean_fallback] *)
Definition clean_fallback (obj : nat) (depth : Z) : M rep :=
  let obj_type := type hp obj in
  if decide (obj_type = DictType) then
    kvs ← lift (items hp obj);
    rs ← clean_items kvs depth;
    seen_set obj (Mapping rs);;
    mret (Mapping rs)
  else if bool_decide (obj_type ∈ SEQ_TYPES) then
    xs ← lift (elems hp obj);
    rs ← clean_elems xs depth;
    seen_set obj (Sequence obj_type rs);;
    mret (Sequence obj_type rs)
  else if bool_decide (obj_type ∈ FUNC_TYPES) then
    seen_set obj Stub;; mret Stub
  else if bool_decide (obj_type ∈ STD_TYPES hst) then
    seen_set obj (Original obj);; mret (Original obj)
  else if decide (obj_type = ModuleType) then
    has_file ← lift (hasattr hp (python2 hst) obj "__file__");
    std ← (if has_file : bool then
             file ← lift (getattr hp obj "__file__");
             lift (startswith hp file (stdlib_dir hst))
           else mret true);
    if std : bool then
      name ← lift (getattr hp obj "__name__");
      seen_set obj (Import (Original name));;
      mret (Import (Original name))
    else
      rp ← lift (repr hp obj);
      seen_set obj (Text rp);;
      mret (Text rp)
  else
    try_except
      (rp ← lift (repr hp obj);
       dct_new obj (mock_dict rp ObjectClass);;
       seen_set obj (Mock obj);;
       update_cleaned obj (dir hp obj) depth;;
       mret (Mock obj))
      (λ _,
       rp ← lift (repr hp obj);
       seen_set obj (Text rp);;
       mret (Text rp)).

(** The [try:] block of [_Cleaner.clean]; [depth] is already decremented. *)
Definition clean_dispatch (obj : nat) (depth : Z) : M rep :=
  if decide (depth = -1) then
    rp ← lift (repr hp obj);
    seen_set obj (Text rp);;
    mret (Text rp)
  else if bool_decide (type hp obj ∈ TRACEBACK_TYPES) then
    clean_traceback_types obj depth
  else
    match pickler self with
    | Some dumps =>
        try_except
          (data ← lift (dumps obj);
           rp ← lift (repr hp obj);
           seen_set obj (SafeRestore data rp);;
           mret (SafeRestore data rp))
          (λ _, clean_fallback obj depth)
    | None => clean_fallback obj depth
    end.

(** The [except Exception as err:] block of [_Cleaner.clean].  The text is
    built with ["...%s" % err], which calls [str(err)]: when that raises, the
    exception leaves the block, and [clean], with nothing memoized. *)
Definition clean_failed (obj : nat) (err : pyexc) : M rep :=
  text ← lift (exc_str err);
  let result := Text ("Failed to serialize object: " +:+ text) in
  seen_set obj result;; mret result.

(** The body of [_Cleaner.clean] *)
Definition clean_body (obj : nat) (depth : Z) : M rep :=
  let depth := depth - 1 in
  memo ← seen_get obj;
  match memo with
  | Some r => mret r
  | None => try_except (clean_dispatch obj depth) (clean_failed obj)
  end.
End Clean.

(** [RecursionError], raised by the call that exceeds the recursion limit *)
Definition recursion_error : pyexc :=
  PyExc RecursionError "maximum recursion depth exceeded".

(** [_Cleaner.clean].  [stack] is the number of nested calls of [clean] the
    host's recursion limit still allows; the call that exceeds it raises
    [RecursionError] in its caller. *)
Fixpoint clean (hst : host) (hp : heap) (self : Cleaner) (stack : nat)
    (obj : nat) (depth : Z) : M rep :=
  match stack with
  | O => raise recursion_error
  | S stack => clean_body hst hp self (clean hst hp self stack) obj depth
  end.

(** [_stub], the replacement for sanitized callables, called with any
    positional and keyword arguments. *)
Definition _stub (args : list rep) (kwargs : list (string * rep)) : result rep :=
  Err (PyExc UserWarning "This is a stub function. The original was not serialized.").

Local Close Scope Z_scope.

(** ** Specification vocabulary *)

(** [wp m Q E s]: run from [s], [m] stops; it returns [a] in a state with
    [Q a], or raises [e] in a state with [E e]. *)
Definition wp {A} (m : M A) (Q : A → state → Prop) (E : pyexc → state → Prop)
    (s : state) : Prop :=
  match m s with
  | Ok a s' => Q a s'
  | Raise e s' => E e s'
  | Diverge => False
  end.

(** The identities an object refers to, through an attribute or as an item
    or element. *)
Definition refs (o : pyobj) : list nat :=
  omap (λ ar, match ar.2 with Val i => Some i | Err _ => None end) (ob_attrs o)
  ++ match ob_data o with
     | PItems kvs => kvs.*1 ++ kvs.*2
     | PElems xs => xs
     | _ => []
     end.

(** [W] is closed under the references of the snapshot. *)
Definition closed (hp : heap) (W : nat → Prop) : Prop :=
  ∀ i j, W i → j ∈ refs (deref hp i) → W j.

Definition same_at (j : nat) (s s' : state) : Prop :=
  seen s' !! j = seen s !! j ∧ dcts s' !! j = dcts s !! j.

(** From [s] to [s']: memo entries are kept as they are, and nothing outside
    [W] is touched. *)
Definition step_rel (W : nat → Prop) (s s' : state) : Prop :=
  (∀ j, is_Some (seen s !! j) → seen s' !! j = seen s !! j) ∧
  (∀ j, ¬ W j → same_at j s s').

(** The exceptions user code of the snapshot, or the pickler, raises. *)
Definition raises_in (o : pyobj) (e : pyexc) : Prop :=
  ob_repr o = Err e ∨ ∃ a, (a, Err e) ∈ ob_attrs o.

Definition host_raises (hp : heap) (self : Cleaner) (e : pyexc) : Prop :=
  (∃ o, o ∈ hp ∧ raises_in o e) ∨
  (∃ dumps i, pickler self = Some dumps ∧ dumps i = Err e).

(** The exceptions raised while [e] is formatted: by [str(e)], by [str] of
    that one, and so on. *)
Fixpoint str_errors (e : pyexc) : list pyexc :=
  match e with
  | PyExc _ _ => []
  | PyExcNoStr _ err => err :: str_errors err
  end.

(** [e] stems from user code: user code raised it, or raised an exception
    whose formatting raised it. *)
Definition stems_from (hp : heap) (self : Cleaner) (e : pyexc) : Prop :=
  ∃ e0, host_raises hp self e0 ∧ (e = e0 ∨ e ∈ str_errors e0).

(** What a block of the cleaner may raise: an [Exception] that can be
    formatted, or an exception that stems from user code. *)
Definition expected (hp : heap) (self : Cleaner) (e : pyexc) : Prop :=
  (is_Exception (exc_cls e) = true ∧ str_errors e = []) ∨ stems_from hp self e.

(** What [clean] may pass on to its caller: an exception of user code that
    is no [Exception], or what [str(err)] raised while the [except] block was
    formatting an exception of user code. *)
Definition escapes (hp : heap) (self : Cleaner) (e : pyexc) : Prop :=
  (is_Exception (exc_cls e) = false ∧ host_raises hp self e) ∨
  (∃ e0, host_raises hp self e0 ∧ e ∈ str_errors e0).

(** Run from [s] inside a computation that began in [s0]: [m] stops, and
    whether it returns or raises, the state is a [step_rel] step from [s0]. *)
Definition within {A} (hp : heap) (self : Cleaner) (W : nat → Prop)
    (s0 : state) (m : M A) (Q : A → state → Prop) (s : state) : Prop :=
  wp m (λ a s', step_rel W s0 s' ∧ Q a s')
       (λ e s', step_rel W s0 s' ∧ expected hp self e) s.

(** The same for a block on its own. *)
Definition block {A} (hp : heap) (self : Cleaner) (W : nat → Prop)
    (m : M A) (Q : A → state → Prop) (s : state) : Prop :=
  within hp self W s m Q s.

(** The objects of the snapshot that are not memoized. *)
Definition unseen (hp : heap) (s : state) : nat :=
  size (set_seq (C:=gset nat) 0 (length hp) ∖ dom (seen s)).

(** ** Chains *)

(** [repr] and every attribute of the object can be read. *)
Definition observable (o : pyobj) : bool :=
  match ob_repr o with
  | Val _ => forallb (λ ar, match ar.2 with Val _ => true | Err _ => false end) (ob_attrs o)
  | Err _ => false
  end.

(** User code of the snapshot, and the pickler, raise only [Exception]s,
    and [str] of these returns. *)
Definition quiet (hp : heap) (self : Cleaner) : Prop :=
  ∀ e, host_raises hp self e →
    is_Exception (exc_cls e) = true ∧ str_errors e = [].

(** One link [t] of a chain has been resolved between [s] and [s']; [key] is
    the attribute that ties the previous node, [last], to it. *)
Definition linked (W : nat → Prop) (key : string) (t : nat) (last : option nat)
    (s s' : state) : Prop :=
  seen s' !! t = Some (Mock t) ∧
  (∀ j, is_Some (seen s !! j) → seen s' !! j = seen s !! j) ∧
  (∀ j, ¬ W j → j ≠ t → seen s' !! j = seen s !! j) ∧
  (∀ j, ¬ W j → j ≠ t → last ≠ Some j → dcts s' !! j = dcts s !! j) ∧
  (∀ l, last = Some l → l ≠ t → ¬ W l →
     dcts s' !! l = dict_set key (Mock t) <$> dcts s !! l).





(** The value under [key] in the dictionary of the mock of [i]. *)
Definition mock_attr (s : state) (i : nat) (key : string) : option rep :=
  dcts s !! i ≫= dict_get key.


(** ** Frames and code objects *)

(** [clean(v, depth)], called when the memo is [m], returns [r] and leaves
    the memo [m']. *)
Definition cleaned_at (hst : host) (hp : heap) (self : Cleaner) (stack : nat)
    (m : gmap nat rep) (v : nat) (depth : Z) (r : rep) (m' : gmap nat rep) : Prop :=
  ∃ sa sb, seen sa = m ∧ seen sb = m' ∧
           clean hst hp self (S stack) v depth sa = Ok r sb.

(** The items of a globals dictionary whose name does not start with a
    double underscore. *)
Fixpoint public (hp : heap) (kvs : list (nat * nat)) : list (nat * nat) :=
  match kvs with
  | [] => []
  | (k, v) :: kvs =>
      match startswith hp k "__" with
      | Val true => public hp kvs
      | _ => (k, v) :: public hp kvs
      end
  end.

(** [rs] holds, under the original keys, what [clean] returned for the
    values of [kvs], called with [depth] on one after the other, the first
    when the memo is [m], each of the others with the memo its predecessor
    left; [m'] is the memo the last one leaves. *)
Fixpoint cleaned_items (hst : host) (hp : heap) (self : Cleaner) (stack : nat)
    (depth : Z) (m : gmap nat rep) (kvs : list (nat * nat))
    (rs : list (rep * rep)) (m' : gmap nat rep) : Prop :=
  match kvs, rs with
  | [], [] => m' = m
  | (k, v) :: kvs, (rk, r) :: rs =>
      rk = Original k ∧
      ∃ m1, cleaned_at hst hp self stack m v depth r m1 ∧
            cleaned_items hst hp self stack depth m1 kvs rs m'
  | _, _ => False
  end.

(** What the dictionary [d] of the mock of frame [fr] holds once the frame
    has been resolved with [depth]; [m] is the memo when the mock has just
    been registered, and [m'] the memo when the frame is done.  The variables
    are cleaned with [depth], the globals first and then the locals and the
    trace hook, and the code object, last, with [depth + 1]. *)
Definition frame_dict (hst : host) (hp : heap) (self : Cleaner) (stack : nat)
    (fr : nat) (depth : Z) (m : gmap nat rep) (d : pydict)
    (m' : gmap nat rep) : Prop :=
  (∀ key, key ∈ dict_keys d ↔
     key ∈ ["_repr"; "_mock"; "f_builtins"] ∨
     (key ∈ dir hp fr ∧ String.prefix "f_" key = true)) ∧
  dict_get "f_builtins" d = Some (FromImport "types" "__builtins__") ∧
  (∀ globs gitems locs litems tr code,
     getattr hp fr "f_globals" = Val globs → items hp globs = Val gitems →
     getattr hp fr "f_locals" = Val locs → items hp locs = Val litems →
     getattr hp fr "f_trace" = Val tr → getattr hp fr "f_code" = Val code →
     ∃ g l rt rc m1 m2 m3,
       dict_get "f_globals" d = Some (Mapping g) ∧
       cleaned_items hst hp self stack depth m (public hp gitems) g m1 ∧
       dict_get "f_locals" d = Some (Mapping l) ∧
       cleaned_items hst hp self stack depth m1 litems l m2 ∧
       dict_get "f_trace" d = Some rt ∧
       cleaned_at hst hp self stack m2 tr depth rt m3 ∧
       dict_get "f_code" d = Some rc ∧
       cleaned_at hst hp self stack m3 code (depth + 1) rc m') ∧
  (∀ rp, repr hp fr = Val rp → dict_get "_repr" d = Some (Text rp)) ∧
  dict_get "_mock" d = Some (FromImport "types" "FrameType") ∧
  (∀ a v, a ∈ dir hp fr → String.prefix "f_" a = true →
     a ∉ ["f_builtins"; "f_globals"; "f_locals"; "f_trace"; "f_code"; "f_back"] →
     getattr hp fr a = Val v → dict_get a d = Some (Original v)).

(** A frame object that can be read, with its caller [back]; what its
    variables, its trace hook and its code refer to is in [W]. *)
Definition is_frame (hp : heap) (W : nat → Prop) (fr back : nat) : Prop :=
  type hp fr = FrameType ∧ truthy hp fr = true ∧
  observable (deref hp fr) = true ∧
  getattr hp fr "f_back" = Val back ∧
  (∃ globs gitems,
     getattr hp fr "f_globals" = Val globs ∧ items hp globs = Val gitems ∧
     Forall (λ kv, W kv.2 ∧ ∃ b, startswith hp kv.1 "__" = Val b) gitems) ∧
  (∃ locs litems,
     getattr hp fr "f_locals" = Val locs ∧ items hp locs = Val litems ∧
     Forall (λ kv, W kv.2) litems) ∧
  (∃ tr, getattr hp fr "f_trace" = Val tr ∧ W tr) ∧
  (∃ code, getattr hp fr "f_code" = Val code ∧ W code).

(** From [s] to [s'], only objects of [W] and the dictionary of [fr] have
    changed, and memo entries are kept. *)
Definition only_within (W : nat → Prop) (fr : nat) (s s' : state) : Prop :=
  (∀ j, is_Some (seen s !! j) → seen s' !! j = seen s !! j) ∧
  (∀ j, ¬ W j → seen s' !! j = seen s !! j) ∧
  (∀ j, ¬ W j → j ≠ fr → dcts s' !! j = dcts s !! j).

(** A chain of frames: each of [frames] is a frame whose caller ([f_back])
    is the next one, and that of the last is [tail]. *)
Fixpoint frames_chain (hp : heap) (W : nat → Prop) (frames : list nat)
    (tail : nat) : Prop :=
  match frames with
  | [] => True
  | fr :: rest => is_frame hp W fr (hd tail rest) ∧ frames_chain hp W rest tail
  end.

(** How a walk changes the dictionary [d] of the frame before it into [d']:
    only [f_back] is set, to the mock of the first frame visited or, when
    none is visited and the walk meets the memoized [tail], to what the memo
    has for it. *)
Definition relinked (hp : heap) (tail : nat) (visited : list nat) (s : state)
    (d d' : pydict) : Prop :=
  (∀ key, key ≠ "f_back" → dict_get key d' = dict_get key d) ∧
  (∀ key, key ∈ dict_keys d' → key = "f_back" ∨ key ∈ dict_keys d) ∧
  (∀ key, key ∈ dict_keys d → key ∈ dict_keys d') ∧
  (∀ t, head visited = Some t → dict_get "f_back" d' = Some (Mock t)) ∧
  (∀ r, visited = [] → truthy hp tail = true → seen s !! tail = Some r →
     dict_get "f_back" d' = Some r).

(** The frames [visited] have been resolved one after the other, the first
    when the memo was [m]; their dictionaries are those of the state [s'],
    whose memo is the one the last frame left. *)
Fixpoint frames_resolved (hst : host) (hp : heap) (self : Cleaner) (stack : nat)
    (depth : Z) (s' : state) (m : gmap nat rep) (visited : list nat) : Prop :=
  match visited with
  | [] => seen s' = m
  | t :: rest =>
      ∃ d m1, dcts s' !! t = Some d ∧
              frame_dict hst hp self stack t depth (<[t := Mock t]> m) d m1 ∧
              frames_resolved hst hp self stack depth s' m1 rest
  end.

(** The frames [visited] have been resolved between [s] and [s']. *)
Definition frames_walked (hst : host) (hp : heap) (self : Cleaner)
    (W : nat → Prop) (stack : nat) (depth : Z) (tail : nat)
    (visited : list nat) (prev : option nat) (s s' : state) : Prop :=
  (∀ j, is_Some (seen s !! j) → seen s' !! j = seen s !! j) ∧
  (∀ t, t ∈ visited → seen s' !! t = Some (Mock t)) ∧
  (∀ j, ¬ W j → j ∉ visited → seen s' !! j = seen s !! j) ∧
  (∀ j, ¬ W j → j ∉ visited → prev ≠ Some j → dcts s' !! j = dcts s !! j) ∧
  frames_resolved hst hp self stack depth s' (seen s) visited ∧
  (∀ i t t', visited !! i = Some t → visited !! S i = Some t' →
     mock_attr s' t "f_back" = Some (Mock t')) ∧
  (∀ t r, last visited = Some t → truthy hp tail = true →
     seen s !! tail = Some r → mock_attr s' t "f_back" = Some r) ∧
  (∀ l d, prev = Some l → ¬ W l → l ∉ visited → dcts s !! l = Some d →
     ∃ d', dcts s' !! l = Some d' ∧ relinked hp tail visited s d d').

(** What the dictionary [d] of the mock of the code object [c] holds once
    [c] has been resolved with [depth]; [m] is the memo before, and [m'] the
    memo after. *)
Definition code_dict (hst : host) (hp : heap) (self : Cleaner) (stack : nat)
    (c : nat) (depth : Z) (m : gmap nat rep) (d : pydict)
    (m' : gmap nat rep) : Prop :=
  (∀ key, key ∈ dict_keys d ↔
     key ∈ ["_repr"; "_mock"] ∨
     (key ∈ dir hp c ∧ String.prefix "co_" key = true)) ∧
  (∀ rp, repr hp c = Val rp → dict_get "_repr" d = Some (Text rp)) ∧
  dict_get "_mock" d = Some (FromImport "types" "CodeType") ∧
  (∀ consts, getattr hp c "co_consts" = Val consts →
     ∃ r, dict_get "co_consts" d = Some r ∧
          cleaned_at hst hp self stack (<[c := Mock c]> m) consts (depth + 2) r m') ∧
  (∀ filename path,
     getattr hp c "co_filename" = Val filename → fspath hp filename = Val path →
     dict_get "co_filename" d = Some (Text (abspath hst path))) ∧
  (∀ a v, a ∈ dir hp c → String.prefix "co_" a = true →
     a ≠ "co_consts" → a ≠ "co_filename" → getattr hp c a = Val v →
     dict_get a d = Some (Original v)).

(** A code object that can be read; its constants are in [W]. *)
Definition is_code (hp : heap) (W : nat → Prop) (c : nat) : Prop :=
  type hp c = CodeType ∧ observable (deref hp c) = true ∧
  (∃ consts, getattr hp c "co_consts" = Val consts ∧ W consts) ∧
  (∃ filename path,
     getattr hp c "co_filename" = Val filename ∧ fspath hp filename = Val path).

(** What a run left behind: the memo entry of [i], and the value under
    [key] in the dictionary of the mock of [i]. *)
Definition memo_of {A} (o : outcome A) (i : nat) : option rep :=
  match o with
  | Ok _ s | Raise _ s => seen s !! i
  | Diverge => None
  end.

Definition attr_of {A} (o : outcome A) (i : nat) (key : string) : option rep :=
  match o with
  | Ok _ s | Raise _ s => mock_attr s i key
  | Diverge => None
  end.

Definition returned {A} (o : outcome A) : option A :=
  match o with Ok a _ => Some a | _ => None end.

(** ** Scenarios *)

(** Builders for the objects of concrete snapshots.  [cls] is the identity
    of the object's class, which [dir] lists under [__class__]. *)
Definition int_obj (z : Z) : pyobj :=
  PyObj IntType (bool_decide (z ≠ 0%Z)) (Val (pretty z)) [] PNothing.

Definition str_obj (s : string) : pyobj :=
  PyObj StrType (bool_decide (s ≠ "")) (Val ("'" +:+ s +:+ "'")) [] (PStr s).

Definition dict_obj (rp : string) (kvs : list (nat * nat)) : pyobj :=
  PyObj DictType (bool_decide (kvs ≠ [])) (Val rp) [] (PItems kvs).

Definition tuple_obj (rp : string) (xs : list nat) : pyobj :=
  PyObj TupleType (bool_decide (xs ≠ [])) (Val rp) [] (PElems xs).

Definition class_obj (rp : string) : pyobj :=
  PyObj (OtherType "type") true (Val rp) [] PNothing.

Definition traceback_obj (rp : string) (cls frame lasti lineno next : nat) : pyobj :=
  PyObj TracebackType true (Val rp)
    [("__class__", Val cls); ("tb_frame", Val frame); ("tb_lasti", Val lasti);
     ("tb_lineno", Val lineno); ("tb_next", Val next)]
    PNothing.

Definition frame_obj (rp : string)
    (cls back builtins code globals lasti lineno locals trace : nat) : pyobj :=
  PyObj FrameType true (Val rp)
    [("__class__", Val cls); ("clear", Val cls); ("f_back", Val back);
     ("f_builtins", Val builtins); ("f_code", Val code);
     ("f_globals", Val globals); ("f_lasti", Val lasti);
     ("f_lineno", Val lineno); ("f_locals", Val locals); ("f_trace", Val trace)]
    PNothing.

Definition code_obj (rp : string) (cls consts filename name : nat) : pyobj :=
  PyObj CodeType true (Val rp)
    [("__class__", Val cls); ("co_consts", Val consts);
     ("co_filename", Val filename); ("co_name", Val name)]
    PNothing.

(** An object whose [__repr__] is interrupted: it raises
    [KeyboardInterrupt], which is no [Exception]. *)
Definition interrupted_obj : pyobj :=
  PyObj (OtherType "Job") true (Err (PyExc (BaseOnly "KeyboardInterrupt") ""))
    [] PNothing.

(** A [bytearray]: a type the pickler of CPython 3.8 and later saves
    itself. *)
Definition bytearray_obj : pyobj :=
  PyObj (OtherType "bytearray") true (Val "bytearray(b'')") [] PNothing.

(** An object whose [__repr__] raises an [Exception] that cannot be
    formatted: its [__str__] raises [TypeError]. *)
Definition unprintable_obj : pyobj :=
  PyObj (OtherType "Job") true
    (Err (PyExcNoStr (OtherException "JobError")
            (PyExc TypeError "__str__ returned non-string")))
    [] PNothing.

(** A CPython 3 host (3.8 or later), with the dispatch table of its
    [pickle._Pickler]. *)
Definition a_host : host :=
  Host 1000%Z (λ path, "/srv/" +:+ path) "/usr/lib/python3" false
    [ (NoneType, "save_none"); (BoolType, "save_bool"); (IntType, "save_long");
      (FloatType, "save_float"); (BytesType, "save_bytes");
      (OtherType "bytearray", "save_bytearray");
      (OtherType "PickleBuffer", "save_picklebuffer");
      (StrType, "save_str"); (TupleType, "save_tuple"); (ListType, "save_list");
      (DictType, "save_dict"); (SetType, "save_set");
      (FrozensetType, "save_frozenset");
      (FunctionType, "save_global"); (OtherType "type", "save_type") ].

(** A crash snapshot: three trace links [1 → 2 → 3]; links 1 and 3 share the
    frame [4], link 2 has the frame [5], whose caller is [4]. *)
Definition crash_heap : heap :=
  [ none_obj;                                      (* 0: None *)
    traceback_obj "<traceback 1>" 15 4 7 7 2;      (* 1 *)
    traceback_obj "<traceback 2>" 15 5 7 7 3;      (* 2 *)
    traceback_obj "<traceback 3>" 15 4 7 7 0;      (* 3 *)
    frame_obj "<frame F>" 15 0 6 8 6 7 7 9 0;      (* 4 *)
    frame_obj "<frame G>" 15 4 6 8 6 7 7 9 0;      (* 5 *)
    dict_obj "{...}" [(10, 11); (12, 7)];          (* 6: globals *)
    int_obj 7;                                     (* 7 *)
    code_obj "<code f>" 15 13 14 12;               (* 8 *)
    dict_obj "{'x': 7}" [(12, 7)];                 (* 9: locals *)
    str_obj "__name__";                            (* 10 *)
    str_obj "__main__";                            (* 11 *)
    str_obj "x";                                   (* 12 *)
    tuple_obj "(7,)" [7];                          (* 13: co_consts *)
    str_obj "a.py";                                (* 14 *)
    class_obj "<class>" ].                         (* 15 *)


(** Decidable forms of [quiet] and [closed], for concrete snapshots. *)
Definition quiet_exc (e : pyexc) : bool :=
  is_Exception (exc_cls e) && match str_errors e with [] => true | _ => false end.

Definition quiet_obj (o : pyobj) : bool :=
  match ob_repr o with Err e => quiet_exc e | Val _ => true end
  && forallb (λ ar, match ar.2 with
                    | Err e => quiet_exc e
                    | Val _ => true
                    end) (ob_attrs o).

Definition quiet_heap (hp : heap) : bool := forallb quiet_obj hp.

(** No object outside [links] refers to one of [links]. *)
Definition closed_outside (hp : heap) (links : list nat) : bool :=
  forallb (λ i, bool_decide (i ∈ links)
                || forallb (λ j, bool_decide (j ∉ links)) (refs (deref hp i)))
          (seq 0 (length hp)).

(** ** Rules for [wp] *)

Section WpRules.
Context {A B : Type}.
Implicit Types (Q : A → state → Prop) (E : pyexc → state → Prop).

Lemma wp_ret (a : A) Q E s : Q a s → wp (mret a) Q E s.
Proof. done. Qed.

Lemma wp_raise (e : pyexc) Q E s : E e s → wp (raise e) Q E s.
Proof. done. Qed.

Lemma wp_mono (m : M A) Q Q' E E' s :
  wp m Q E s →
  (∀ a s', Q a s' → Q' a s') →
  (∀ e s', E e s' → E' e s') →
  wp m Q' E' s.
Proof. unfold wp. destruct (m s); naive_solver. Qed.

Lemma wp_bind (m : M A) (f : A → M B) (Q : B → state → Prop) E s :
  wp m (λ a s', wp (f a) Q E s') E s → wp (m ≫= f) Q E s.
Proof. unfold wp, mbind, M_bind, bind. by destruct (m s). Qed.

(** A call or block with a known specification, followed by [f]. *)
Lemma wp_call (m : M A) (f : A → M B) Q' E' (Q : B → state → Prop) E s :
  wp m Q' E' s →
  (∀ a s', Q' a s' → wp (f a) Q E s') →
  (∀ e s', E' e s' → E e s') →
  wp (m ≫= f) Q E s.
Proof. intros Hm HQ HE. apply wp_bind. eapply wp_mono; eauto. Qed.

Lemma wp_lift (r : result A) (f : A → M B) (Q : B → state → Prop) E s :
  (∀ a, r = Val a → wp (f a) Q E s) →
  (∀ e, r = Err e → E e s) →
  wp (lift r ≫= f) Q E s.
Proof. intros HV HE. apply wp_bind. destruct r; [by apply HV | by apply HE]. Qed.

Lemma wp_try (m : M A) (h : pyexc → M A) Q E s :
  wp m Q (λ e s', if is_Exception (exc_cls e) then wp (h e) Q E s' else E e s') s →
  wp (try_except m h) Q E s.
Proof.
  unfold wp, try_except. destruct (m s) as [a s'|e s'|]; [done| |done].
  by destruct (is_Exception (exc_cls e)).
Qed.
End WpRules.

Section WpState.
Context {B : Type}.
Implicit Types (Q : B → state → Prop) (E : pyexc → state → Prop).

Lemma wp_seen_get i (f : option rep → M B) Q E s :
  wp (f (seen s !! i)) Q E s → wp (seen_get i ≫= f) Q E s.
Proof. intros Hf. by apply wp_bind. Qed.

Lemma wp_seen_set i r (f : unit → M B) Q E s :
  (∀ s', seen s' = <[i := r]> (seen s) → dcts s' = dcts s → wp (f ()) Q E s') →
  wp (seen_set i r ≫= f) Q E s.
Proof. intros Hf. apply wp_bind. by apply Hf. Qed.

Lemma wp_dct_new i d (f : unit → M B) Q E s :
  (∀ s', seen s' = seen s → dcts s' = <[i := d]> (dcts s) → wp (f ()) Q E s') →
  wp (dct_new i d ≫= f) Q E s.
Proof. intros Hf. apply wp_bind. by apply Hf. Qed.

Lemma wp_dct_setitem d k v (f : unit → M B) Q E s :
  (∀ s', seen s' = seen s →
         dcts s' = match d with
                   | Some i => alter (dict_set k v) i (dcts s)
                   | None => dcts s
                   end →
         wp (f ()) Q E s') →
  wp (dct_setitem d k v ≫= f) Q E s.
Proof. intros Hf. apply wp_bind. destruct d; by apply Hf. Qed.
End WpState.

(** ** What a call of [clean] may change *)

Section Steps.
Variable W : nat → Prop.

Lemma step_refl s : step_rel W s s.
Proof. by split. Qed.

Lemma step_trans s1 s2 s3 : step_rel W s1 s2 → step_rel W s2 s3 → step_rel W s1 s3.
Proof.
  intros [Ha Hb] [Hc Hd]. split.
  - intros j Hj. rewrite Hc; [by apply Ha|]. by rewrite Ha.
  - intros j Hj. destruct (Hb j Hj) as [Hx Hy], (Hd j Hj) as [Hx' Hy'].
    split; congruence.
Qed.

Lemma step_seen_set s s' i r :
  seen s' = <[i := r]> (seen s) → dcts s' = dcts s →
  seen s !! i = None → W i → step_rel W s s'.
Proof.
  intros Hs Hd Hi HW. split.
  - intros j [x Hj]. rewrite Hs, lookup_insert_ne; [done|congruence].
  - intros j Hj. split; [|by rewrite Hd].
    rewrite Hs, lookup_insert_ne; [done|]. by intros ->.
Qed.

Lemma step_dct_new s s' i d :
  seen s' = seen s → dcts s' = <[i := d]> (dcts s) → W i → step_rel W s s'.
Proof.
  intros Hs Hd HW. split; [intros; by rewrite Hs|].
  intros j Hj. split; [by rewrite Hs|].
  rewrite Hd, lookup_insert_ne; [done|]. by intros ->.
Qed.

Lemma step_dct_setitem s s' (d : option nat) k v :
  seen s' = seen s →
  dcts s' = match d with
            | Some i => alter (dict_set k v) i (dcts s)
            | None => dcts s
            end →
  (∀ i, d = Some i → W i) → step_rel W s s'.
Proof.
  intros Hs Hd HW. split; [intros; by rewrite Hs|].
  intros j Hj. split; [by rewrite Hs|]. rewrite Hd.
  destruct d as [i|]; [|done].
  rewrite lookup_alter_ne; [done|]. intros ->. by apply Hj, HW.
Qed.

(** Storing the result of the call on [obj], which was not memoized when
    the call began in [s0]. *)
Lemma step_overwrite s0 s s' obj r :
  step_rel W s0 s →
  seen s' = <[obj := r]> (seen s) → dcts s' = dcts s →
  seen s0 !! obj = None → W obj → step_rel W s0 s'.
Proof.
  intros [Ha Hb] Hs Hd Hobj HW. split.
  - intros j Hj. rewrite Hs, lookup_insert_ne; [by apply Ha|].
    intros ->. rewrite Hobj in Hj. by destruct Hj.
  - intros j Hj. destruct (Hb j Hj) as [Hx Hy]. split; [|by rewrite Hd].
    rewrite Hs, lookup_insert_ne; [done|]. by intros ->.
Qed.

Lemma step_seen_None s s' j : step_rel W s s' → seen s' !! j = None → seen s !! j = None.
Proof.
  intros [Ha _] Hj. destruct (seen s !! j) eqn:Heq; [|done].
  rewrite Ha in Hj; [congruence|]. by rewrite Heq.
Qed.

Lemma step_seen_Some s s' j r : step_rel W s s' → seen s !! j = Some r → seen s' !! j = Some r.
Proof. intros [Ha _] Hj. rewrite Ha; [done|]. by rewrite Hj. Qed.
End Steps.

(** ** Observations and the references they follow *)

Section Observations.
Variables (hp : heap) (self : Cleaner).

Lemma deref_cases i : deref hp i = none_obj ∨ deref hp i ∈ hp.
Proof.
  unfold deref. destruct (hp !! i) as [o|] eqn:Hi; [right|by left].
  by eapply list_elem_of_lookup_2.
Qed.

Lemma truthy_lt i : truthy hp i = true → (i < length hp)%nat.
Proof.
  unfold truthy, deref. destruct (hp !! i) as [o|] eqn:Hi; [|done].
  intros _. by eapply lookup_lt_Some.
Qed.

Lemma assoc_elem {A} k (l : list (string * A)) a : assoc k l = Some a → (k, a) ∈ l.
Proof.
  induction l as [|[k' a'] l IH]; [done|]. simpl.
  case_decide as Hk; [intros [= ->]; subst; left | right; auto].
Qed.

Lemma host_expected e : host_raises hp self e → expected hp self e.
Proof. intros He. right. exists e. split; [done|by left]. Qed.

Lemma internal_expected c text : is_Exception c = true → expected hp self (PyExc c text).
Proof. intros Hc. by left. Qed.

Lemma repr_expected i e : repr hp i = Err e → expected hp self e.
Proof.
  unfold repr. intros He. destruct (deref_cases i) as [Hn|Hin].
  - by rewrite Hn in He.
  - apply host_expected. left. exists (deref hp i). split; [done|by left].
Qed.

Lemma getattr_expected i a e : getattr hp i a = Err e → expected hp self e.
Proof.
  unfold getattr. destruct (assoc a _) as [r|] eqn:Ha.
  - intros ->. apply assoc_elem in Ha. destruct (deref_cases i) as [Hn|Hin].
    + rewrite Hn in Ha. by apply elem_of_nil in Ha.
    + apply host_expected. left. exists (deref hp i). split; [done|right; eauto].
  - intros [= <-]. by apply internal_expected.
Qed.

Lemma hasattr_expected py2 i a e : hasattr hp py2 i a = Err e → expected hp self e.
Proof.
  unfold hasattr. destruct (getattr hp i a) eqn:Hg; [done|].
  case_decide; [done|]. destruct (py2 && _); [done|].
  intros [= <-]. by eapply getattr_expected.
Qed.

Lemma items_expected i e : items hp i = Err e → expected hp self e.
Proof. unfold items. by destruct (ob_data _); intros [= <-]; apply internal_expected. Qed.

Lemma elems_expected i e : elems hp i = Err e → expected hp self e.
Proof. unfold elems. by destruct (ob_data _); intros [= <-]; apply internal_expected. Qed.

Lemma startswith_expected i p e : startswith hp i p = Err e → expected hp self e.
Proof.
  unfold startswith. by destruct (ob_data _); intros [= <-]; apply internal_expected.
Qed.

Lemma fspath_expected i e : fspath hp i = Err e → expected hp self e.
Proof. unfold fspath. by destruct (ob_data _); intros [= <-]; apply internal_expected. Qed.

Lemma dumps_expected dumps i e :
  pickler self = Some dumps → dumps i = Err e → expected hp self e.
Proof. intros Hp He. apply host_expected. right. eauto. Qed.

Lemma str_errors_trans e0 e e' :
  e ∈ str_errors e0 → e' ∈ str_errors e → e' ∈ str_errors e0.
Proof.
  induction e0 as [|c e1 IH]; simpl; [by intros ?%elem_of_nil|].
  intros [->|He]%elem_of_cons He'; [by right|]. right. by apply IH.
Qed.

Lemma exc_str_errors e e' : exc_str e = Err e' → e' ∈ str_errors e.
Proof. destruct e; simpl; [done|]. intros [= <-]. by left. Qed.

(** What [str] of an expected exception raises leaves [clean]. *)
Lemma expected_str_escapes e e' :
  expected hp self e → exc_str e = Err e' → escapes hp self e'.
Proof.
  intros [[_ Hnil]|(e0 & He0 & [->|He])] Hstr%exc_str_errors.
  - rewrite Hnil in Hstr. by apply elem_of_nil in Hstr.
  - right. eauto.
  - right. exists e0. split; [done|]. by eapply str_errors_trans.
Qed.

(** An expected exception that is no [Exception] leaves [clean]. *)
Lemma expected_base_escapes e :
  expected hp self e → is_Exception (exc_cls e) = false → escapes hp self e.
Proof.
  intros [[Hcls _]|(e0 & He0 & [->|He])] Hbase; [congruence|by left|right; eauto].
Qed.

Lemma escapes_expected e : escapes hp self e → expected hp self e.
Proof.
  intros [[_ He]|(e0 & He0 & He)]; [by apply host_expected|].
  right. exists e0. split; [done|by right].
Qed.

Lemma getattr_refs i a j : getattr hp i a = Val j → j ∈ refs (deref hp i).
Proof.
  unfold getattr, refs. destruct (assoc a _) as [r|] eqn:Ha; [|done].
  intros ->. apply assoc_elem in Ha. apply elem_of_app. left.
  apply list_elem_of_omap. by exists (a, Val j).
Qed.

Lemma items_refs i kvs k v :
  items hp i = Val kvs → (k, v) ∈ kvs →
  k ∈ refs (deref hp i) ∧ v ∈ refs (deref hp i).
Proof.
  unfold items, refs. destruct (ob_data _); try done. intros [= ->] Hin.
  split; apply elem_of_app; right; apply elem_of_app; [left|right];
    apply list_elem_of_fmap; by exists (k, v).
Qed.

Lemma elems_refs i xs x : elems hp i = Val xs → x ∈ xs → x ∈ refs (deref hp i).
Proof.
  unfold elems, refs. destruct (ob_data _); try done. intros [= ->] Hin.
  apply elem_of_app. by right.
Qed.
End Observations.

(** ** Soundness of the cleaner *)

Section Sound.
Variables (hst : host) (hp : heap) (self : Cleaner) (W : nat → Prop).
Hypothesis Hclosed : closed hp W.

Lemma block_within {A} (m : M A) Q s0 s :
  step_rel W s0 s → block hp self W m Q s →
  within hp self W s0 m (λ a s', step_rel W s s' ∧ Q a s') s.
Proof.
  intros Hs Hm. eapply wp_mono; [exact Hm| |]; simpl.
  - intros a s' [Hn HQ]. eauto using step_trans.
  - intros e s' [Hn He]. eauto using step_trans.
Qed.

Lemma within_block {A} (m : M A) Q s :
  (∀ s0, step_rel W s0 s → within hp self W s0 m Q s) → block hp self W m Q s.
Proof. intros Hm. apply Hm, step_refl. Qed.

(** A sub-block with a known specification, then the rest. *)
Lemma within_seq {A B} (m : M A) (f : A → M B) Qm (Q : B → state → Prop) s0 s :
  step_rel W s0 s → block hp self W m Qm s →
  (∀ a s', step_rel W s0 s' → step_rel W s s' → Qm a s' → within hp self W s0 (f a) Q s') →
  within hp self W s0 (m ≫= f) Q s.
Proof.
  intros Hs Hm Hf. eapply wp_call; [by apply block_within| |done].
  intros a s' (? & ? & ?). by apply Hf.
Qed.

Lemma within_ret {A} (a : A) (Q : A → state → Prop) s0 s :
  step_rel W s0 s → Q a s → within hp self W s0 (mret a) Q s.
Proof. intros. by apply wp_ret. Qed.

(** An observation of the snapshot, then the rest. *)
Lemma within_lift {A B} (r : result A) (f : A → M B) Q s0 s :
  step_rel W s0 s →
  (∀ e, r = Err e → expected hp self e) →
  (∀ a, r = Val a → within hp self W s0 (f a) Q s) →
  within hp self W s0 (lift r ≫= f) Q s.
Proof. intros Hs He Hf. apply wp_lift; [done|]. intros e Hr. eauto. Qed.

Lemma within_dct_setitem {B} d k v (f : unit → M B) Q s0 s :
  step_rel W s0 s → (∀ i, d = Some i → W i) →
  (∀ s', step_rel W s0 s' → seen s' = seen s → within hp self W s0 (f ()) Q s') →
  within hp self W s0 (dct_setitem d k v ≫= f) Q s.
Proof.
  intros Hs Hd Hf. apply wp_dct_setitem. intros s' Hseen Hdcts.
  assert (step_rel W s s') by by eapply step_dct_setitem.
  apply Hf; eauto using step_trans.
Qed.

Lemma within_dct_new {B} i d (f : unit → M B) Q s0 s :
  step_rel W s0 s → W i →
  (∀ s', step_rel W s0 s' → seen s' = seen s → within hp self W s0 (f ()) Q s') →
  within hp self W s0 (dct_new i d ≫= f) Q s.
Proof.
  intros Hs Hd Hf. apply wp_dct_new. intros s' Hseen Hdcts.
  assert (step_rel W s s') by by eapply step_dct_new.
  apply Hf; eauto using step_trans.
Qed.

Lemma block_dct_setitem d k v s :
  (∀ i, d = Some i → W i) → block hp self W (dct_setitem d k v) (λ _ _, True) s.
Proof.
  intros Hd. unfold block, within, wp.
  destruct d as [i|]; simpl; (split; [|done]).
  - eapply (step_dct_setitem W s _ (Some i)); eauto.
  - apply step_refl.
Qed.

(** Memoizing an object that is not memoized yet. *)
Lemma within_seen_set {B} i r (f : unit → M B) Q s0 s :
  step_rel W s0 s → W i → seen s !! i = None →
  (∀ s', step_rel W s0 s' → step_rel W s s' → seen s' !! i = Some r →
     within hp self W s0 (f ()) Q s') →
  within hp self W s0 (seen_set i r ≫= f) Q s.
Proof.
  intros Hs Hd Hi Hf. apply wp_seen_set. intros s' Hseen Hdcts.
  assert (step_rel W s s') by by eapply step_seen_set.
  apply Hf; eauto using step_trans. by rewrite Hseen, lookup_insert_eq.
Qed.

(** Storing the result for [obj], on which the computation was called. *)
Lemma within_seen_set_result {B} obj r (f : unit → M B) Q s0 s :
  step_rel W s0 s → W obj → seen s0 !! obj = None →
  (∀ s', step_rel W s0 s' → seen s' !! obj = Some r → within hp self W s0 (f ()) Q s') →
  within hp self W s0 (seen_set obj r ≫= f) Q s.
Proof.
  intros Hs Hd Hi Hf. apply wp_seen_set. intros s' Hseen Hdcts.
  apply Hf; [by eapply step_overwrite|]. by rewrite Hseen, lookup_insert_eq.
Qed.

Variable clean : nat → Z → M rep.
Hypothesis Hrec : ∀ obj depth s, W obj →
  block hp self W (clean obj depth) (λ r s', seen s' !! obj = Some r) s.

Lemma update_raw_ok obj pre names s :
  W obj → block hp self W (update_raw hp obj pre names) (λ _ _, True) s.
Proof.
  intros HW. apply within_block. intros s0. revert s.
  induction names as [|name names IH]; intros s Hs; simpl.
  - by apply within_ret.
  - destruct (String.prefix pre name); [|by apply IH].
    apply within_lift; [done|apply getattr_expected|]. intros v Hv.
    apply within_dct_setitem; [done|by intros ? [= <-]|]. intros s1 Hs1 _.
    by apply IH.
Qed.

Lemma W_getattr i a j : W i → getattr hp i a = Val j → W j.
Proof. intros HW Hg. eapply Hclosed; [done|]. by eapply getattr_refs. Qed.

Lemma W_items i kvs :
  W i → items hp i = Val kvs → Forall (λ kv, W kv.1 ∧ W kv.2) kvs.
Proof.
  intros HW Hi. apply Forall_forall. intros [k v] Hin.
  destruct (items_refs _ _ _ _ _ Hi Hin). split; by eapply Hclosed.
Qed.

Lemma W_elems i xs : W i → elems hp i = Val xs → Forall W xs.
Proof.
  intros HW Hi. apply Forall_forall. intros x Hin.
  eapply Hclosed; [done|]. by eapply elems_refs.
Qed.

Ltac observe L := apply within_lift; [done|apply L|].
Ltac call := eapply within_seq; [done|apply Hrec|].
Ltac setitem :=
  apply within_dct_setitem; [done|by intros ? [= <-]|]; intros ? ? _.

Lemma clean_globals_ok kvs depth s :
  Forall (λ kv, W kv.1 ∧ W kv.2) kvs →
  block hp self W (clean_globals hp clean kvs depth) (λ _ _, True) s.
Proof.
  intros Hkvs. apply within_block. intros s0. revert s.
  induction Hkvs as [|[k v] kvs [Hk Hv] _ IH]; intros s Hs; simpl.
  - by apply within_ret.
  - observe startswith_expected. intros [] _; [by apply IH|].
    call; [done|]. intros r s1 Hs1 _ _.
    eapply wp_call; [by apply IH| |done]. intros rs s2 [Hs2 _].
    by apply within_ret.
Qed.

Lemma clean_locals_ok kvs depth s :
  Forall (λ kv, W kv.1 ∧ W kv.2) kvs →
  block hp self W (clean_locals clean kvs depth) (λ _ _, True) s.
Proof.
  intros Hkvs. apply within_block. intros s0. revert s.
  induction Hkvs as [|[k v] kvs [Hk Hv] _ IH]; intros s Hs; simpl.
  - by apply within_ret.
  - call; [done|]. intros r s1 Hs1 _ _.
    eapply wp_call; [by apply IH| |done]. intros rs s2 [Hs2 _].
    by apply within_ret.
Qed.

Lemma clean_items_ok kvs depth s :
  Forall (λ kv, W kv.1 ∧ W kv.2) kvs →
  block hp self W (clean_items clean kvs depth) (λ _ _, True) s.
Proof.
  intros Hkvs. apply within_block. intros s0. revert s.
  induction Hkvs as [|[k v] kvs [Hk Hv] _ IH]; intros s Hs; simpl.
  - by apply within_ret.
  - call; [done|]. intros rk s1 Hs1 _ _.
    call; [done|]. intros rv s2 Hs2 _ _.
    eapply wp_call; [by apply IH| |done]. intros rs s3 [Hs3 _].
    by apply within_ret.
Qed.

Lemma clean_elems_ok xs depth s :
  Forall W xs → block hp self W (clean_elems clean xs depth) (λ _ _, True) s.
Proof.
  intros Hxs. apply within_block. intros s0. revert s.
  induction Hxs as [|x xs Hx _ IH]; intros s Hs; simpl.
  - by apply within_ret.
  - call; [done|]. intros r s1 Hs1 _ _.
    eapply wp_call; [by apply IH| |done]. intros rs s2 [Hs2 _].
    by apply within_ret.
Qed.

Lemma update_cleaned_ok obj names depth s :
  W obj → block hp self W (update_cleaned hp clean obj names depth) (λ _ _, True) s.
Proof.
  intros HW. apply within_block. intros s0. revert s.
  induction names as [|name names IH]; intros s Hs; simpl.
  - by apply within_ret.
  - destruct (String.prefix "__" name); [by apply IH|].
    observe getattr_expected. intros v Hv.
    call; [by eapply W_getattr|]. intros r s1 Hs1 _ _.
    setitem. by apply IH.
Qed.

Lemma wp_lift_end {A} (r : result A) Q E s :
  (∀ a, r = Val a → Q a s) → (∀ e, r = Err e → E e s) → wp (lift r) Q E s.
Proof. intros HQ HE. destruct r; [by apply HQ|by apply HE]. Qed.

Lemma trace_link_ok trace last depth s :
  W trace → (∀ l, last = Some l → W l) → seen s !! trace = None →
  block hp self W (trace_link hp clean trace last depth)
    (λ next s', W next ∧ is_Some (seen s' !! trace)) s.
Proof.
  intros HW Hl Hmemo. unfold block, trace_link.
  pose proof (step_refl W s) as Hs.
  observe repr_expected. intros rp _.
  apply within_dct_new; [done..|]. intros s1 Hs1 Hn1.
  apply within_seen_set; [done..|by rewrite Hn1|]. intros s2 Hs2 _ Hreg.
  eapply wp_mono; [apply (block_within _ (λ next _, W next) s s2 Hs2)| |];
    [|intros next s' (? & ? & ?); erewrite step_seen_Some; eauto
     |by intros ? ? (? & ?)].
  unfold block. pose proof (step_refl W s2) as Hs2'.
  apply within_dct_setitem; [done..|]. intros s3 Hs3 _.
  eapply within_seq; [done|by apply update_raw_ok|]. intros _ s4 Hs4 _ _.
  observe getattr_expected. intros frame Hframe.
  call; [by eapply W_getattr|]. intros r s5 Hs5 _ _.
  setitem. apply wp_lift_end; [|eauto using getattr_expected].
  intros next Hnext. split; [done|]. by eapply W_getattr.
Qed.

Lemma trace_loop_ok k trace last depth s :
  W trace → (∀ l, last = Some l → W l) →
  block hp self W (trace_loop hp clean k trace last depth) (λ l _, ∀ i, l = Some i → W i) s.
Proof.
  intros HW Hl. apply within_block. intros s0. revert trace last s HW Hl.
  induction k as [|k IH]; intros trace last s HW Hl Hs; simpl.
  { by apply within_ret. }
  destruct (truthy hp trace); simpl; [|by apply within_ret].
  apply wp_seen_get. destruct (seen s !! trace) as [r|] eqn:Hmemo.
  { apply within_dct_setitem; [done..|]. intros s1 Hs1 _. by apply within_ret. }
  eapply within_seq; [done|by apply trace_link_ok|]. intros next s1 Hs1 _ [Hnext _].
  apply IH; [done|by intros ? [= <-]|done].
Qed.

Lemma unseen_length s : (unseen hp s ≤ length hp)%nat.
Proof.
  unfold unseen. rewrite <-(size_set_seq (C:=gset nat) 0 (length hp)) at 2.
  apply subseteq_size. set_solver.
Qed.

Lemma step_rel_dom s s' : step_rel W s s' → dom (seen s) ⊆ dom (seen s').
Proof.
  intros [Hst _] j Hj. apply elem_of_dom in Hj. apply elem_of_dom.
  by rewrite Hst.
Qed.

Lemma unseen_step s s' : step_rel W s s' → (unseen hp s' ≤ unseen hp s)%nat.
Proof.
  intros Hs. unfold unseen. apply subseteq_size. apply step_rel_dom in Hs. set_solver.
Qed.

Lemma unseen_register s s' i :
  step_rel W s s' → (i < length hp)%nat → seen s !! i = None →
  is_Some (seen s' !! i) → (unseen hp s' < unseen hp s)%nat.
Proof.
  intros Hs Hi Hnone Hsome. unfold unseen. apply subset_size.
  apply step_rel_dom in Hs. apply not_elem_of_dom in Hnone.
  apply elem_of_dom in Hsome.
  assert (i ∈ set_seq (C:=gset nat) 0 (length hp)) by (apply elem_of_set_seq; lia).
  split; [set_solver|]. intros Hsub.
  assert (i ∈ set_seq (C:=gset nat) 0 (length hp) ∖ dom (seen s')) as Hin
    by (apply Hsub; set_solver).
  set_solver.
Qed.

Lemma frame_link_ok frame last depth s :
  W frame → (∀ l, last = Some l → W l) → seen s !! frame = None →
  block hp self W (frame_link hp clean frame last depth)
    (λ back s', W back ∧ is_Some (seen s' !! frame)) s.
Proof.
  intros HW Hl Hmemo. unfold block, frame_link.
  pose proof (step_refl W s) as Hs.
  observe repr_expected. intros rp _.
  apply within_dct_new; [done..|]. intros s1 Hs1 Hn1.
  apply within_seen_set; [done..|by rewrite Hn1|]. intros s2 Hs2 _ Hreg.
  eapply wp_mono; [apply (block_within _ (λ back _, W back) s s2 Hs2)| |];
    [|intros back s' (? & ? & ?); erewrite step_seen_Some; eauto
     |by intros ? ? (? & ?)].
  unfold block. pose proof (step_refl W s2) as Hs2'.
  apply within_dct_setitem; [done..|]. intros s3 Hs3 _.
  eapply within_seq; [done|by apply update_raw_ok|]. intros _ s4 Hs4 _ _.
  setitem.
  observe getattr_expected. intros globs Hglobs.
  observe items_expected. intros gitems Hgitems.
  eapply within_seq; [done|apply clean_globals_ok|].
  { eapply W_items; [|done]. by eapply W_getattr. }
  intros g s6 Hs6 _ _. setitem.
  observe getattr_expected. intros locs Hlocs.
  observe items_expected. intros litems Hlitems.
  eapply within_seq; [done|apply clean_locals_ok|].
  { eapply W_items; [|done]. by eapply W_getattr. }
  intros l s8 Hs8 _ _. setitem.
  observe getattr_expected. intros tr Htr.
  call; [by eapply W_getattr|]. intros t s10 Hs10 _ _. setitem.
  observe getattr_expected. intros code Hcode.
  call; [by eapply W_getattr|]. intros c s12 Hs12 _ _. setitem.
  apply wp_lift_end; [|eauto using getattr_expected].
  intros back Hback. split; [done|]. by eapply W_getattr.
Qed.

Lemma frame_loop_ok fuel frame last depth s :
  (unseen hp s ≤ fuel)%nat → W frame → (∀ l, last = Some l → W l) →
  block hp self W (frame_loop hp clean fuel frame last depth) (λ _ _, True) s.
Proof.
  revert frame last s.
  induction fuel as [|fuel IH]; intros frame last s Hfuel HW Hl;
    unfold block; simpl.
  - destruct (truthy hp frame) eqn:Ht; simpl; [|apply within_ret; [apply step_refl|done]].
    apply wp_seen_get. destruct (seen s !! frame) as [r|] eqn:Hmemo.
    { by apply block_dct_setitem. }
    exfalso. apply truthy_lt in Ht.
    assert (frame ∈ set_seq (C:=gset nat) 0 (length hp) ∖ dom (seen s)) as Hin.
    { apply elem_of_difference.
      split; [apply elem_of_set_seq; lia|by apply not_elem_of_dom]. }
    assert (unseen hp s ≠ 0); [|lia]. unfold unseen.
    apply size_non_empty_iff. intros Hempty. rewrite Hempty in Hin.
    by apply not_elem_of_empty in Hin.
  - pose proof (step_refl W s) as Hs.
    destruct (truthy hp frame) eqn:Ht; simpl; [|by apply within_ret].
    apply wp_seen_get. destruct (seen s !! frame) as [r|] eqn:Hmemo.
    { by apply block_dct_setitem. }
    eapply within_seq; [done|by apply frame_link_ok|].
    intros back s1 _ Hs1 [Hback Hreg].
    eapply wp_mono; [apply (block_within _ (λ _ _, True) s s1 Hs1)| |];
      [|by intros ? ? (? & ? & ?)|by intros ? ? (? & ?)].
    apply IH; [|done|by intros ? [= <-]].
    assert (unseen hp s1 < unseen hp s)%nat; [|lia].
    eapply unseen_register; [done|by apply truthy_lt|done..].
Qed.

Lemma within_try {A} (m : M A) (h : pyexc → M A) Q s0 s :
  within hp self W s0 m Q s →
  (∀ e s', step_rel W s0 s' → is_Exception (exc_cls e) = true →
     within hp self W s0 (h e) Q s') →
  within hp self W s0 (try_except m h) Q s.
Proof.
  intros Hm Hh. apply wp_try. eapply wp_mono; [exact Hm|done|]. simpl.
  intros e s' [Hs' He]. destruct (is_Exception (exc_cls e)) eqn:Hcls; [|done].
  by apply Hh.
Qed.

Lemma seen_item_ok obj s0 s :
  step_rel W s0 s → within hp self W s0 (seen_item obj) (λ r s', seen s' !! obj = Some r) s.
Proof.
  intros Hs. unfold seen_item. apply wp_seen_get.
  destruct (seen s !! obj) as [r|] eqn:Hr; [by apply within_ret|].
  apply wp_raise. split; [done|]. by left.
Qed.

Lemma clean_traceback_types_ok obj depth s :
  W obj → seen s !! obj = None →
  block hp self W (clean_traceback_types hst hp self clean obj depth)
    (λ r s', seen s' !! obj = Some r) s.
Proof.
  intros HW Hobj. unfold block, clean_traceback_types.
  pose proof (step_refl W s) as Hs.
  destruct (decide (type hp obj = TracebackType)) as [_|_];
    [|destruct (decide (type hp obj = FrameType)) as [_|_]].
  - eapply within_seq; [done|by apply trace_loop_ok|]. intros last s1 Hs1 _ Hlast.
    apply within_dct_setitem; [done..|]. intros s2 Hs2 _.
    by apply seen_item_ok.
  - eapply within_seq; [done|apply frame_loop_ok; [apply unseen_length|done..]|].
    intros _ s1 Hs1 _ _. by apply seen_item_ok.
  - observe repr_expected. intros rp _.
    apply within_dct_new; [done..|]. intros s1 Hs1 Hn1.
    apply within_seen_set; [done..|by rewrite Hn1|]. intros s2 Hs2 _ Hreg.
    eapply wp_mono; [apply (block_within _ (λ r _, r = Mock obj) s s2 Hs2)| |];
      [|intros r s' (? & ? & ->); eauto using step_seen_Some
       |by intros ? ? (? & ?)].
    unfold block. pose proof (step_refl W s2) as Hs2'.
    eapply within_seq; [done|by apply update_raw_ok|]. intros _ s3 Hs3 _ _.
    observe getattr_expected. intros consts Hconsts.
    call; [by eapply W_getattr|]. intros c s4 Hs4 _ _. setitem.
    observe getattr_expected. intros filename Hfilename.
    observe fspath_expected. intros path Hpath. setitem.
    by apply within_ret.
Qed.

Lemma clean_fallback_ok obj depth s :
  W obj → seen s !! obj = None →
  block hp self W (clean_fallback hst hp clean obj depth) (λ r s', seen s' !! obj = Some r) s.
Proof.
  intros HW Hobj. unfold block, clean_fallback.
  pose proof (step_refl W s) as Hs.
  destruct (decide (type hp obj = DictType)) as [_|_];
    [|destruct (bool_decide (type hp obj ∈ SEQ_TYPES));
      [|destruct (bool_decide (type hp obj ∈ FUNC_TYPES));
        [|destruct (bool_decide (type hp obj ∈ STD_TYPES hst));
          [|destruct (decide (type hp obj = ModuleType)) as [_|_]]]]].
  - observe items_expected. intros kvs Hkvs.
    eapply within_seq; [done|by eapply clean_items_ok, W_items|].
    intros rs s1 Hs1 _ _.
    apply within_seen_set_result; [done..|]. intros s2 Hs2 Hr.
    by apply within_ret.
  - observe elems_expected. intros xs Hxs.
    eapply within_seq; [done|by eapply clean_elems_ok, W_elems|].
    intros rs s1 Hs1 _ _.
    apply within_seen_set_result; [done..|]. intros s2 Hs2 Hr.
    by apply within_ret.
  - apply within_seen_set_result; [done..|]. intros s2 Hs2 Hr.
    by apply within_ret.
  - apply within_seen_set_result; [done..|]. intros s2 Hs2 Hr.
    by apply within_ret.
  - observe hasattr_expected. intros has_file _.
    apply wp_bind.
    assert (within hp self W s (if has_file
                      then file ← lift (getattr hp obj "__file__");
                           lift (startswith hp file (stdlib_dir hst))
                      else mret true) (λ _ s', s' = s) s) as Hstd.
    { destruct has_file; [|by apply within_ret].
      observe getattr_expected. intros file _.
      unfold within, wp. by destruct (startswith hp file _) eqn:Hsw;
        simpl; eauto using startswith_expected. }
    eapply wp_mono; [exact Hstd| |done]. simpl. intros std s' [_ ->].
    destruct std.
    + observe getattr_expected. intros name _.
      apply within_seen_set_result; [done..|]. intros s2 Hs2 Hr.
      by apply within_ret.
    + observe repr_expected. intros rp _.
      apply within_seen_set_result; [done..|]. intros s2 Hs2 Hr.
      by apply within_ret.
  - apply within_try.
    + observe repr_expected. intros rp _.
      apply within_dct_new; [done..|]. intros s1 Hs1 Hn1.
      apply within_seen_set; [done..|by rewrite Hn1|]. intros s2 Hs2 _ Hreg.
      eapply wp_mono; [apply (block_within _ (λ r _, r = Mock obj) s s2 Hs2)| |];
        [|intros r s' (? & ? & ->); eauto using step_seen_Some
         |by intros ? ? (? & ?)].
      unfold block. pose proof (step_refl W s2) as Hs2'.
      eapply within_seq; [done|by apply update_cleaned_ok|]. intros _ s3 Hs3 _ _.
      by apply within_ret.
    + intros e s1 Hs1 _.
      observe repr_expected. intros rp _.
      apply within_seen_set_result; [done..|]. intros s2 Hs2 Hr.
      by apply within_ret.
Qed.

Lemma clean_dispatch_ok obj depth s :
  W obj → seen s !! obj = None →
  block hp self W (clean_dispatch hst hp self clean obj depth)
    (λ r s', seen s' !! obj = Some r) s.
Proof.
  intros HW Hobj. unfold clean_dispatch.
  destruct (decide (depth = (-1)%Z)) as [_|_];
    [|destruct (bool_decide (type hp obj ∈ TRACEBACK_TYPES))].
  - unfold block. pose proof (step_refl W s) as Hs.
    observe repr_expected. intros rp _.
    apply within_seen_set_result; [done..|]. intros s2 Hs2 Hr.
    by apply within_ret.
  - by apply clean_traceback_types_ok.
  - destruct (pickler self) as [dumps|] eqn:Hdumps; [|by apply clean_fallback_ok].
    assert (∀ e, expected hp self e →
      if is_Exception (exc_cls e)
      then within hp self W s (clean_fallback hst hp clean obj depth)
             (λ r s', seen s' !! obj = Some r) s
      else step_rel W s s ∧ expected hp self e) as Hfail.
    { intros e He. destruct (is_Exception (exc_cls e)).
      - by apply clean_fallback_ok.
      - split; [apply step_refl|done]. }
    unfold block. apply wp_try.
    apply wp_lift; [|intros e He; by eapply Hfail, dumps_expected].
    intros data _.
    apply wp_lift; [|intros e He; by eapply Hfail, repr_expected].
    intros rp _. apply wp_seen_set. intros s2 Hseen Hdcts. apply wp_ret.
    split; [by eapply step_seen_set|]. by rewrite Hseen, lookup_insert_eq.
Qed.

Lemma clean_body_ok obj depth s :
  W obj →
  wp (clean_body hst hp self clean obj depth)
     (λ r s', step_rel W s s' ∧ seen s' !! obj = Some r)
     (λ e s', step_rel W s s' ∧ escapes hp self e) s.
Proof.
  intros HW. unfold clean_body. apply wp_seen_get.
  destruct (seen s !! obj) as [r|] eqn:Hmemo.
  { apply wp_ret. split; [apply step_refl|done]. }
  apply wp_try. eapply wp_mono; [by apply clean_dispatch_ok|done|]. simpl.
  intros e s' [Hs' He]. destruct (is_Exception (exc_cls e)) eqn:Hcls;
    [|split; [done|by apply expected_base_escapes]].
  unfold clean_failed.
  apply wp_lift; [|intros e' He'; split; [done|by eapply expected_str_escapes]].
  intros text _.
  apply wp_seen_set. intros s2 Hseen Hdcts. apply wp_ret.
  split; [by eapply step_overwrite|]. by rewrite Hseen, lookup_insert_eq.
Qed.
End Sound.

(** [clean] stops on every snapshot; it keeps what is memoized, touches
    nothing outside a closed set [W] that holds [obj], memoizes what it
    returns, and what it passes on stems from user code: an exception that is
    no [Exception], or what [str(err)] raised in the [except] block. *)
Lemma clean_sound hst hp self (W : nat → Prop) stack obj depth s :
  closed hp W → W obj →
  wp (clean hst hp self stack obj depth)
     (λ r s', step_rel W s s' ∧ seen s' !! obj = Some r)
     (λ e s', step_rel W s s' ∧ expected hp self e ∧
              (stack ≠ 0 → escapes hp self e)) s.
Proof.
  intros Hclosed. revert obj depth s.
  induction stack as [|stack IH]; intros obj depth s HW; simpl.
  - apply wp_raise. split; [apply step_refl|]. split; [|done].
    by apply internal_expected.
  - eapply wp_mono; [eapply clean_body_ok; [done| |done]|done|].
    + intros obj' depth' s' HW'. unfold block.
      eapply wp_mono; [by apply IH|done|naive_solver].
    + simpl. intros e s' [Hs' He]. split; [done|]. split; [|done].
      by apply escapes_expected.
Qed.

(** ** Walking a trace chain *)

Lemma dict_get_set_eq k v d : dict_get k (dict_set k v d) = Some v.
Proof.
  induction d as [|[k' v'] d IH]; simpl; [by rewrite decide_True|].
  destruct (decide (k' = k)) as [->|Hne]; simpl; [by rewrite decide_True|].
  by rewrite decide_False.
Qed.

Lemma dict_get_set_ne k k' v d : k ≠ k' → dict_get k' (dict_set k v d) = dict_get k' d.
Proof.
  intros Hne. induction d as [|[k0 v0] d IH]; simpl; [by rewrite decide_False|].
  destruct (decide (k0 = k)) as [->|Hne0]; simpl.
  - by rewrite !decide_False.
  - destruct (decide (k0 = k')); [done|apply IH].
Qed.

Lemma dict_keys_set k v d key :
  key ∈ dict_keys (dict_set k v d) ↔ key = k ∨ key ∈ dict_keys d.
Proof.
  unfold dict_keys. induction d as [|[k0 v0] d IH]; simpl.
  - set_solver.
  - destruct (decide (k0 = k)) as [->|Hne]; simpl; set_solver.
Qed.

Lemma observable_repr hp t : observable (deref hp t) = true → ∃ rp, repr hp t = Val rp.
Proof. unfold observable, repr. destruct (ob_repr _); [eauto|done]. Qed.

Lemma observable_getattr hp t a :
  observable (deref hp t) = true → a ∈ dir hp t → ∃ v, getattr hp t a = Val v.
Proof.
  unfold observable, dir, getattr. destruct (ob_repr _); [|done].
  intros Hall Ha. induction (ob_attrs (deref hp t)) as [|[k r] l IH]; simpl in *.
  { by apply elem_of_nil in Ha. }
  apply andb_prop in Hall as [Hr Hl].
  destruct (decide (k = a)) as [->|Hne].
  - destruct r; [eauto|done].
  - apply IH; [done|]. apply elem_of_cons in Ha as [->|]; done.
Qed.

(** The cleaner returns when user code raises only [Exception]s that can be
    formatted. *)
Lemma clean_returns hst hp self (W : nat → Prop) stack obj depth s :
  quiet hp self → closed hp W → W obj →
  wp (clean hst hp self (S stack) obj depth)
     (λ r s', step_rel W s s' ∧ seen s' !! obj = Some r) (λ _ _, False) s.
Proof.
  intros Hq Hc HW. eapply wp_mono; [by apply clean_sound|done|]. simpl.
  intros e s' (_ & _ & Hesc). destruct (Hesc ltac:(done)) as [[Hb He]|(e0 & He0 & He)].
  - destruct (Hq e He). congruence.
  - destruct (Hq e0 He0) as [_ Hnil]. rewrite Hnil in He. by apply elem_of_nil in He.
Qed.


Section TraceLink.
Variables (hst : host) (hp : heap) (self : Cleaner) (W : nat → Prop).
Hypothesis Hquiet : quiet hp self.
Hypothesis Hclosed : closed hp W.
Variable stack : nat.

End TraceLink.

Section TraceWalk.
Variables (hst : host) (hp : heap) (self : Cleaner) (W : nat → Prop).
Hypothesis Hquiet : quiet hp self.
Hypothesis Hclosed : closed hp W.
Variables (stack : nat) (depth : Z) (tail : nat).



End TraceWalk.


Lemma wp_returns {A} (m : M A) Q s :
  wp m Q (λ _ _, False) s → ∃ a s', m s = Ok a s' ∧ Q a s'.
Proof. unfold wp. destruct (m s) as [a s'| |]; [eauto|done..]. Qed.


Lemma quiet_heap_quiet hp self :
  quiet_heap hp = true → pickler self = None → quiet hp self.
Proof.
  intros Hq Hp e [(o & Ho & He)|(dumps & i & Hd & _)]; [|congruence].
  unfold quiet_heap in Hq. rewrite forallb_forall in Hq.
  apply list_elem_of_In, Hq in Ho. apply andb_prop in Ho as [Hr Ha].
  assert (quiet_exc e = true) as [Hcls Hstr]%andb_prop.
  { destruct He as [He|[a He]].
    - by rewrite He in Hr.
    - rewrite forallb_forall in Ha. by apply list_elem_of_In, Ha in He. }
  split; [done|]. by destruct (str_errors e).
Qed.

Lemma closed_outside_closed hp links :
  closed_outside hp links = true → closed hp (λ i, i ∉ links).
Proof.
  unfold closed_outside. rewrite forallb_forall. intros Hc i j Hi Hj.
  destruct (decide (i < length hp)%nat) as [Hlt|Hge].
  - specialize (Hc i). rewrite in_seq in Hc. specialize (Hc ltac:(lia)).
    apply orb_prop in Hc as [Hc|Hc].
    + by apply bool_decide_eq_true in Hc.
    + rewrite forallb_forall in Hc. apply list_elem_of_In, Hc in Hj.
      by apply bool_decide_eq_true in Hj.
  - assert (hp !! i = None) as Hnone by (apply lookup_ge_None_2; lia).
    unfold deref in Hj. rewrite Hnone in Hj. by apply elem_of_nil in Hj.
Qed.

(** ** The claims *)

Local Open Scope Z_scope.

(** C9: the stub raises the same error for whatever arguments it is called
    with: a [UserWarning] saying that the original was not serialized. *)
Theorem stub_always_raises args kwargs args' kwargs' :
  _stub args kwargs = _stub args' kwargs' ∧
  _stub args kwargs =
    Err (PyExc UserWarning "This is a stub function. The original was not serialized.").
Proof. by split. Qed.

(** C10: a falsy [limit] argument ([None] or [0]) is replaced by the default,
    the integer square root of the host's recursion limit; so [limit = 0]
    makes the same cleaner as no limit at all, and cleans every object the
    same way. *)
Theorem falsy_limit_is_default hst hp dumps stack obj depth s :
  limit (Cleaner_init hst dumps None) = Z.sqrt (getrecursionlimit hst) ∧
  Cleaner_init hst dumps (Some 0) = Cleaner_init hst dumps None ∧
  clean hst hp (Cleaner_init hst dumps (Some 0)) stack obj depth s =
    clean hst hp (Cleaner_init hst dumps None) stack obj depth s.
Proof. by repeat split. Qed.

(** C10 on the crash snapshot: with [limit = 0] the walk does not stop at
    once; all three links are resolved. *)
Example zero_limit_walks_the_chain :
  let run := clean a_host crash_heap (Cleaner_init a_host None (Some 0)) 10 1 3 empty_state in
  memo_of run 1%nat = Some (Mock 1) ∧ memo_of run 2%nat = Some (Mock 2) ∧
  memo_of run 3%nat = Some (Mock 3).
Proof. vm_compute. done. Qed.

(** C1, counterexample: [repr] of the object raises [KeyboardInterrupt];
    [except Exception] does not catch it, and [clean] passes it on. *)
Lemma clean_propagates_KeyboardInterrupt :
  clean a_host [interrupted_obj] (Cleaner_init a_host None None) 5 0 3 empty_state =
    Raise (PyExc (BaseOnly "KeyboardInterrupt") "") empty_state.
Proof. reflexivity. Qed.

(** C1, a second way out: [repr] of the object raises an [Exception] whose
    [__str__] raises; the [except] block fails while it builds the failure
    text, and the [TypeError] leaves [clean], with nothing memoized. *)
Example clean_propagates_failing_str :
  clean a_host [unprintable_obj] (Cleaner_init a_host None None) 5 0 3 empty_state =
    Raise (PyExc TypeError "__str__ returned non-string") empty_state.
Proof. reflexivity. Qed.

(** C1, amended: [clean] always stops.  It returns a representation, which
    it has memoized, or it passes on an exception that stems from user code of
    the snapshot (or the pickler): one that is no [Exception], or the one
    [str(err)] raised while the [except] block was formatting a caught
    [Exception].  When its [try] block fails with an [Exception] that can be
    formatted, what it returns, and memoizes, is the text
    "Failed to serialize object: " followed by [str(err)].  When user code
    raises only [Exception]s that can be formatted, [clean] returns. *)
Theorem clean_passes_on_user_errors_only hst hp self stack obj depth s :
  match clean hst hp self (S stack) obj depth s with
  | Ok r s' => seen s' !! obj = Some r
  | Raise e s' => escapes hp self e
  | Diverge => False
  end ∧
  match seen s !! obj with
  | Some r => clean hst hp self (S stack) obj depth s = Ok r s
  | None =>
      match clean_dispatch hst hp self (clean hst hp self stack) obj (depth - 1) s with
      | Raise e s' =>
          if is_Exception (exc_cls e) then
            match exc_str e with
            | Val str_e =>
                let text := Text ("Failed to serialize object: " +:+ str_e) in
                clean hst hp self (S stack) obj depth s =
                  Ok text (State (<[obj := text]> (seen s')) (dcts s'))
            | Err e' => clean hst hp self (S stack) obj depth s = Raise e' s'
            end
          else clean hst hp self (S stack) obj depth s = Raise e s'
      | o => clean hst hp self (S stack) obj depth s = o
      end
  end ∧
  (quiet hp self →
   ∃ r s', clean hst hp self (S stack) obj depth s = Ok r s' ∧
           seen s' !! obj = Some r).
Proof.
  split; [|split].
  - pose proof (clean_sound hst hp self (λ _, True) (S stack) obj depth s) as Hs.
    unfold wp in Hs. destruct (clean _ _ _ _ _ _ _) as [r s'|e s'|].
    + by apply Hs.
    + destruct Hs as (_ & _ & Hesc); [done..|]. by apply Hesc.
    + by apply Hs.
  - simpl. unfold clean_body, mbind, M_bind, bind, seen_get, try_except. simpl.
    destruct (seen s !! obj); [done|].
    destruct (clean_dispatch _ _ _ _ _ _ _) as [r s'|e s'|]; [done| |done].
    destruct (is_Exception (exc_cls e)); [|done].
    unfold clean_failed, mbind, M_bind, bind. by destruct (exc_str e).
  - intros Hquiet.
    destruct (wp_returns _ _ _
                (clean_returns hst hp self (λ _, True) stack obj depth s
                   Hquiet ltac:(done) I)) as (r & s' & Hrun & _ & Hmemo).
    eauto.
Qed.

(** With [depth = 0] the decrement exhausts the depth: an object that is
    not memoized, of whatever type, is returned as its [repr] text, and only
    its memo entry is added. *)
Lemma exhausted_depth_gives_text hst hp self stack obj s rp :
  seen s !! obj = None → repr hp obj = Val rp →
  clean hst hp self (S stack) obj 0 s =
    Ok (Text rp) (State (<[obj := Text rp]> (seen s)) (dcts s)).
Proof.
  intros Hmemo Hrepr. simpl.
  unfold clean_body, mbind, M_bind, bind, seen_get, try_except. rewrite Hmemo.
  unfold clean_dispatch. simpl. unfold mbind, M_bind, bind. by rewrite Hrepr.
Qed.

(** C5, at the failing input: the crash snapshot cleaned with [depth = -1],
    "no limit".  The constants of the code object [8] are cleaned with
    [depth + 2 = 0], the decrement makes that [-1], and the tuple [13] is
    collapsed to its [repr] text; with [depth = 5] it is a cleaned tuple. *)
Theorem unlimited_depth_collapses_constants :
  attr_of (clean a_host crash_heap (Cleaner_init a_host None None) 10 1 (-1) empty_state)
    8%nat "co_consts" = Some (Text "(7,)") ∧
  attr_of (clean a_host crash_heap (Cleaner_init a_host None None) 10 1 5 empty_state)
    8%nat "co_consts" = Some (Sequence TupleType [Original 7]).
Proof. by vm_compute. Qed.


(** C8, counterexample: the integer [7] of the crash snapshot cleaned with
    [depth = 0] comes back as the text "7", not as itself. *)
Lemma exhausted_depth_turns_int_to_text :
  clean a_host crash_heap (Cleaner_init a_host None None) 10 7 0 empty_state =
    Ok (Text "7") (State {[7%nat := Text "7"]} ∅).
Proof. reflexivity. Qed.

(** C8, amended: an object whose type is in [STD_TYPES], the known-safe
    types of the host's pickler (on CPython 3.8 and later the table also has
    [bytearray] and [PickleBuffer]), and that no earlier test of the cleaner
    takes (it is no traceback, frame or code object, no [dict], no [list],
    [tuple] or [set], no function), not memoized yet, cleaned with a depth
    that is not exhausted and with no external pickler, is returned as itself
    and memoized as itself. *)
Theorem known_safe_passes_through hst hp self stack obj depth s :
  type hp obj ∈ STD_TYPES hst →
  type hp obj ∉ TRACEBACK_TYPES → type hp obj ≠ DictType →
  type hp obj ∉ SEQ_TYPES → type hp obj ∉ FUNC_TYPES →
  pickler self = None → depth ≠ 0 → seen s !! obj = None →
  clean hst hp self (S stack) obj depth s =
    Ok (Original obj) (State (<[obj := Original obj]> (seen s)) (dcts s)).
Proof.
  intros Hstd Htb Hdict Hseq Hfunc Hdumps Hdepth Hmemo. simpl.
  unfold clean_body, mbind, M_bind, bind, seen_get, try_except. rewrite Hmemo.
  unfold clean_dispatch. destruct (decide (depth - 1 = -1)) as [|_]; [lia|].
  rewrite (bool_decide_eq_false_2 _ Htb), Hdumps. unfold clean_fallback.
  rewrite (decide_False _ _ Hdict), (bool_decide_eq_false_2 _ Hseq),
    (bool_decide_eq_false_2 _ Hfunc), (bool_decide_eq_true_2 _ Hstd).
  reflexivity.
Qed.

(** C8, witness: a [bytearray] on the CPython 3 host, cleaned at depth 3. *)
Lemma known_safe_passes_through_witness :
  clean a_host [bytearray_obj] (Cleaner_init a_host None None) 1 0 3 empty_state =
    Ok (Original 0) (State (<[0%nat := Original 0]> ∅) ∅).
Proof.
  apply (known_safe_passes_through a_host [bytearray_obj]
           (Cleaner_init a_host None None) 0 0 3 empty_state).
  - apply (bool_decide_unpack _). by vm_compute.
  - apply (bool_decide_unpack _). by vm_compute.
  - done.
  - apply (bool_decide_unpack _). by vm_compute.
  - apply (bool_decide_unpack _). by vm_compute.
  - reflexivity.
  - lia.
  - reflexivity.
Defined.







(** ** Further properties of the cleaner *)

Local Close Scope Z_scope.

(** *** Walking a chain of frames *)

Lemma only_within_refl W fr s : only_within W fr s s.
Proof. done. Qed.

Lemma only_within_step W fr s a b :
  only_within W fr s a → step_rel W a b → only_within W fr s b.
Proof.
  intros (Hst & Hseen & Hdcts) [Hst' Hout]. repeat split.
  - intros j Hj. rewrite Hst', Hst; [done..|]. by rewrite Hst.
  - intros j Hj. destruct (Hout j Hj) as [-> _]. by apply Hseen.
  - intros j Hj Hne. destruct (Hout j Hj) as [_ ->]. by apply Hdcts.
Qed.

Lemma only_within_setitem W fr s a b key v :
  only_within W fr s a →
  seen b = seen a → dcts b = alter (dict_set key v) fr (dcts a) →
  only_within W fr s b.
Proof.
  intros (Hst & Hseen & Hdcts) Hs Hd. repeat split.
  - intros j Hj. rewrite Hs. by apply Hst.
  - intros j Hj. rewrite Hs. by apply Hseen.
  - intros j Hj Hne. rewrite Hd, lookup_alter_ne by done. by apply Hdcts.
Qed.

Lemma getattr_dir hp t a v : getattr hp t a = Val v → a ∈ dir hp t.
Proof.
  unfold getattr, dir. destruct (assoc a _) as [r|] eqn:Ha; [|done].
  intros _. apply assoc_elem in Ha. apply list_elem_of_fmap. by exists (a, r).
Qed.

(** What [update_raw] leaves in the dictionary: the listed attributes with
    the prefix, each with the live value it has, beside what was there. *)
Lemma update_raw_values hp obj pre names s d :
  (∀ a, a ∈ names → ∃ v, getattr hp obj a = Val v) →
  dcts s !! obj = Some d →
  wp (update_raw hp obj pre names)
     (λ _ s', seen s' = seen s ∧
              (∀ j, j ≠ obj → dcts s' !! j = dcts s !! j) ∧
              ∃ d', dcts s' !! obj = Some d' ∧
                (∀ key, key ∈ dict_keys d' ↔
                   key ∈ dict_keys d ∨ (key ∈ names ∧ String.prefix pre key = true)) ∧
                (∀ a v, a ∈ names → String.prefix pre a = true →
                   getattr hp obj a = Val v → dict_get a d' = Some (Original v)) ∧
                (∀ key, ¬ (key ∈ names ∧ String.prefix pre key = true) →
                   dict_get key d' = dict_get key d))
     (λ _ _, False) s.
Proof.
  revert s d. induction names as [|name names IH]; intros s d Hnames Hd; simpl.
  { apply wp_ret. split; [done|]. split; [done|]. exists d.
    split; [done|]. split; [|split; [|done]].
    - intros key. split; [by left|]. intros [?|[Hin _]]; [done|].
      by apply elem_of_nil in Hin.
    - intros a v Ha. by apply elem_of_nil in Ha. }
  assert (∀ a, a ∈ names → ∃ v, getattr hp obj a = Val v) as Hrest
    by (intros a Ha; apply Hnames, elem_of_cons; by right).
  destruct (String.prefix pre name) eqn:Hpre.
  - destruct (Hnames name) as [v Hv]; [apply elem_of_cons; by left|]. rewrite Hv.
    apply wp_lift; [|done]. intros ? [= <-].
    apply wp_dct_setitem. intros s1 Hseen Hdcts.
    eapply wp_mono; [apply (IH s1 (dict_set name (Original v) d)); [done|]|simpl|done].
    { by rewrite Hdcts, lookup_alter_eq, Hd. }
    intros _ s' (Hs' & Hother & d' & Hd' & Hkeys & Hvals & Hkeep).
    split; [congruence|]. split.
    { intros j Hj. rewrite Hother, Hdcts, lookup_alter_ne; done. }
    exists d'. split; [done|]. split; [|split].
    + intros key. rewrite Hkeys, dict_keys_set, elem_of_cons.
      clear -Hpre. naive_solver.
    + intros a v' [->|Ha]%elem_of_cons Hp Hg; [|by apply Hvals].
      assert (v' = v) as -> by congruence.
      destruct (decide (name ∈ names)) as [Hin|Hnin]; [by apply Hvals|].
      rewrite Hkeep by (intros [? _]; done). apply dict_get_set_eq.
    + intros key Hkey.
      rewrite Hkeep by (intros [? ?]; apply Hkey; split; [by right|done]).
      apply dict_get_set_ne. intros ->. apply Hkey. split; [by left|done].
  - eapply wp_mono; [by apply (IH s d)|simpl|done].
    intros _ s' (Hs' & Hother & d' & Hd' & Hkeys & Hvals & Hkeep).
    split; [done|]. split; [done|]. exists d'. split; [done|]. split; [|split].
    + intros key. rewrite Hkeys, elem_of_cons.
      clear -Hpre. split; [naive_solver|].
      intros [?|[[->|?] ?]]; [by left|congruence|by right].
    + intros a v [->|Ha]%elem_of_cons Hp Hg; [congruence|by apply Hvals].
    + intros key Hkey. apply Hkeep.
      intros [? ?]. apply Hkey. split; [by right|done].
Qed.

Section FrameLink.
Variables (hst : host) (hp : heap) (self : Cleaner) (W : nat → Prop).
Hypothesis Hquiet : quiet hp self.
Hypothesis Hclosed : closed hp W.
Variable stack : nat.

Lemma wp_clean v depth s (Q : rep → state → Prop) :
  W v →
  (∀ r s', step_rel W s s' → seen s' !! v = Some r →
           clean hst hp self (S stack) v depth s = Ok r s' → Q r s') →
  wp (clean hst hp self (S stack) v depth) Q (λ _ _, False) s.
Proof.
  intros HW HQ. pose proof (clean_returns hst hp self W stack v depth s Hquiet Hclosed HW) as Hc.
  unfold wp in *. destruct (clean _ _ _ _ _ _ _) as [r s'| |]; [|done..].
  destruct Hc. by apply HQ.
Qed.

Lemma clean_globals_runs kvs depth s :
  Forall (λ kv, W kv.2 ∧ ∃ b, startswith hp kv.1 "__" = Val b) kvs →
  wp (clean_globals hp (clean hst hp self (S stack)) kvs depth)
     (λ rs s', step_rel W s s' ∧
               cleaned_items hst hp self stack depth (seen s) (public hp kvs) rs (seen s'))
     (λ _ _, False) s.
Proof.
  intros Hkvs. revert s.
  induction Hkvs as [|[k v] kvs [Hv [b Hb]] _ IH]; intros s; simpl.
  { apply wp_ret. split; [apply step_refl|done]. }
  simpl in Hb, Hv. rewrite Hb. simpl. apply wp_bind, wp_ret.
  destruct b.
  { apply IH. }
  apply wp_bind, wp_clean; [done|]. intros r s1 Hs1 _ Hrun.
  eapply wp_call; [apply IH| |done]. simpl. intros rs s2 [Hs2 Hrs].
  apply wp_ret. split; [by eapply step_trans|].
  split; [done|]. exists (seen s1). split; [by exists s, s1|done].
Qed.

Lemma clean_locals_runs kvs depth s :
  Forall (λ kv, W kv.2) kvs →
  wp (clean_locals (clean hst hp self (S stack)) kvs depth)
     (λ rs s', step_rel W s s' ∧
               cleaned_items hst hp self stack depth (seen s) kvs rs (seen s'))
     (λ _ _, False) s.
Proof.
  intros Hkvs. revert s.
  induction Hkvs as [|[k v] kvs Hv _ IH]; intros s; simpl.
  { apply wp_ret. split; [apply step_refl|done]. }
  simpl in Hv. apply wp_bind, wp_clean; [done|]. intros r s1 Hs1 _ Hrun.
  eapply wp_call; [apply IH| |done]. simpl. intros rs s2 [Hs2 Hrs].
  apply wp_ret. split; [by eapply step_trans|].
  split; [done|]. exists (seen s1). split; [by exists s, s1|done].
Qed.

Lemma frame_link_runs fr back prev depth s :
  is_frame hp W fr back → ¬ W fr → seen s !! fr = None →
  (∀ l, prev = Some l → l ≠ fr) →
  wp (frame_link hp (clean hst hp self (S stack)) fr prev depth)
     (λ b s', b = back ∧ linked W "f_back" fr prev s s' ∧
              ∃ d, dcts s' !! fr = Some d ∧
                   frame_dict hst hp self stack fr depth
                     (<[fr := Mock fr]> (seen s)) d (seen s'))
     (λ _ _, False) s.
Proof.
  intros (Htype & Htruthy & Hobs & Hback & (globs & gitems & Hglobs & Hgitems & HWg)
          & (locs & litems & Hlocs & Hlitems & HWl) & (tr & Htr & HWtr)
          & (code & Hcode & HWcode)) HWfr Hmemo Hprev.
  unfold frame_link.
  destruct (observable_repr hp fr Hobs) as [rp Hrp]. rewrite Hrp.
  apply wp_lift; [|done]. intros ? [= <-].
  apply wp_dct_new. intros s1 Hseen1 Hdcts1.
  apply wp_seen_set. intros s2 Hseen2 Hdcts2.
  apply wp_dct_setitem. intros s3 Hseen3 Hdcts3.
  set (d3 := mock_dict rp (FromImport "types" "FrameType")).
  assert (dcts s3 !! fr = Some d3) as Hd3.
  { rewrite Hdcts3, Hdcts2, Hdcts1. destruct prev as [l|].
    - rewrite lookup_alter_ne by (intros ->; by eapply Hprev).
      by rewrite lookup_insert_eq.
    - by rewrite lookup_insert_eq. }
  eapply wp_call; [eapply (update_raw_values hp fr "f_" _ s3 d3); [|done]| |done].
  { intros a Ha. by apply observable_getattr. }
  simpl. intros _ s4 (Hseen4 & Hother4 & d4 & Hd4 & Hkeys4 & Hvals4 & Hkeep4).
  assert (only_within W fr s3 s4) as Hr4.
  { repeat split; intros; rewrite ?Hseen4; auto. }
  apply wp_dct_setitem. intros s5 Hseen5 Hdcts5.
  pose proof (only_within_setitem _ _ _ _ _ _ _ Hr4 Hseen5 Hdcts5) as Hr5.
  rewrite Hglobs. apply wp_lift; [|done]. intros ? [= <-].
  rewrite Hgitems. apply wp_lift; [|done]. intros ? [= <-].
  eapply wp_call; [by apply clean_globals_runs| |done]. simpl.
  intros g s6 [Hs6 Hg].
  pose proof (only_within_step _ _ _ _ _ Hr5 Hs6) as Hr6.
  apply wp_dct_setitem. intros s7 Hseen7 Hdcts7.
  pose proof (only_within_setitem _ _ _ _ _ _ _ Hr6 Hseen7 Hdcts7) as Hr7.
  rewrite Hlocs. apply wp_lift; [|done]. intros ? [= <-].
  rewrite Hlitems. apply wp_lift; [|done]. intros ? [= <-].
  eapply wp_call; [by apply clean_locals_runs| |done]. simpl.
  intros l s8 [Hs8 Hl].
  pose proof (only_within_step _ _ _ _ _ Hr7 Hs8) as Hr8.
  apply wp_dct_setitem. intros s9 Hseen9 Hdcts9.
  pose proof (only_within_setitem _ _ _ _ _ _ _ Hr8 Hseen9 Hdcts9) as Hr9.
  rewrite Htr. apply wp_lift; [|done]. intros ? [= <-].
  apply wp_bind, wp_clean; [done|]. intros rt s10 Hs10 _ Hrt.
  pose proof (only_within_step _ _ _ _ _ Hr9 Hs10) as Hr10.
  apply wp_dct_setitem. intros s11 Hseen11 Hdcts11.
  pose proof (only_within_setitem _ _ _ _ _ _ _ Hr10 Hseen11 Hdcts11) as Hr11.
  rewrite Hcode. apply wp_lift; [|done]. intros ? [= <-].
  apply wp_bind, wp_clean; [done|]. intros rc s12 Hs12 _ Hrc.
  pose proof (only_within_step _ _ _ _ _ Hr11 Hs12) as Hr12.
  apply wp_dct_setitem. intros s13 Hseen13 Hdcts13.
  pose proof (only_within_setitem _ _ _ _ _ _ _ Hr12 Hseen13 Hdcts13) as Hr13.
  apply wp_lift_end; [|congruence]. intros b Hb.
  split; [congruence|].
  destruct Hr13 as (Rst & Rseen & Rdcts).
  assert (seen s3 = <[fr := Mock fr]> (seen s)) as Hs3 by congruence.
  split.
  - repeat split.
    + rewrite Rseen, Hs3 by done. apply lookup_insert_eq.
    + intros j Hj. rewrite Rst; rewrite Hs3, lookup_insert_ne; try done;
        intros ->; rewrite Hmemo in Hj; by destruct Hj.
    + intros j Hj Hne. by rewrite Rseen, Hs3, lookup_insert_ne.
    + intros j Hj Hne Hp. rewrite Rdcts by done.
      rewrite Hdcts3, Hdcts2, Hdcts1.
      destruct prev as [p|]; [rewrite lookup_alter_ne by congruence|];
        by rewrite lookup_insert_ne.
    + intros p -> Hne Hp. rewrite Rdcts by done.
      rewrite Hdcts3, Hdcts2, Hdcts1, lookup_alter_eq.
      by rewrite lookup_insert_ne.
  - destruct Hs6 as [_ Ho6], Hs8 as [_ Ho8], Hs10 as [_ Ho10], Hs12 as [_ Ho12].
    destruct (Ho6 fr HWfr) as [_ Hd6], (Ho8 fr HWfr) as [_ Hd8],
      (Ho10 fr HWfr) as [_ Hd10], (Ho12 fr HWfr) as [_ Hd12].
    eexists. split.
    { rewrite Hdcts13, lookup_alter_eq, Hd12, Hdcts11, lookup_alter_eq, Hd10,
        Hdcts9, lookup_alter_eq, Hd8, Hdcts7, lookup_alter_eq, Hd6,
        Hdcts5, lookup_alter_eq, Hd4. reflexivity. }
    unfold frame_dict. split; [|split; [|split; [|split; [|split]]]].
    + intros key. rewrite !dict_keys_set, Hkeys4.
      pose proof (getattr_dir _ _ _ _ Hglobs) as Hi1.
      pose proof (getattr_dir _ _ _ _ Hlocs) as Hi2.
      pose proof (getattr_dir _ _ _ _ Htr) as Hi3.
      pose proof (getattr_dir _ _ _ _ Hcode) as Hi4.
      unfold d3, mock_dict, dict_keys. simpl. rewrite !elem_of_cons, elem_of_nil.
      clear -Hi1 Hi2 Hi3 Hi4. naive_solver.
    + rewrite !dict_get_set_ne by done. apply dict_get_set_eq.
    + intros ? ? ? ? ? ? Hx1 Hx2 Hx3 Hx4 Hx5 Hx6.
      rewrite Hglobs in Hx1. injection Hx1 as <-.
      rewrite Hgitems in Hx2. injection Hx2 as <-.
      rewrite Hlocs in Hx3. injection Hx3 as <-.
      rewrite Hlitems in Hx4. injection Hx4 as <-.
      rewrite Htr in Hx5. injection Hx5 as <-.
      rewrite Hcode in Hx6. injection Hx6 as <-.
      exists g, l, rt, rc, (seen s6), (seen s8), (seen s10).
      split; [by rewrite !dict_get_set_ne, dict_get_set_eq by done|].
      split; [by rewrite <-Hs3, <-Hseen4, <-Hseen5|].
      split; [by rewrite !dict_get_set_ne, dict_get_set_eq by done|].
      split; [by rewrite <-Hseen7|].
      split; [by rewrite !dict_get_set_ne, dict_get_set_eq by done|].
      split; [exists s9, s10; by rewrite Hseen9|].
      split; [by rewrite dict_get_set_eq|].
      exists s11, s12. by rewrite Hseen11, Hseen13.
    + intros rp' Hrp'. rewrite !dict_get_set_ne by done.
      rewrite Hkeep4 by (by intros [_ ?]). unfold d3. simpl. congruence.
    + rewrite !dict_get_set_ne by done.
      by rewrite Hkeep4 by (by intros [_ ?]).
    + intros a v Ha Hp Hn Hv.
      rewrite !dict_get_set_ne
        by (intros <-; apply Hn; rewrite !elem_of_cons; tauto).
      by apply Hvals4.
Qed.
End FrameLink.

Lemma frame_dict_relinked hst hp self stack fr depth tail visited s m m' d d' back :
  getattr hp fr "f_back" = Val back →
  frame_dict hst hp self stack fr depth m d m' → relinked hp tail visited s d d' →
  frame_dict hst hp self stack fr depth m d' m'.
Proof.
  intros Hback (Hkeys & Hb & Hvars & Hr & Hm & Hraw) (Hsame & Hsub & Hsup & _ & _).
  assert ("f_back" ∈ dict_keys d) as Hin.
  { apply Hkeys. right. split; [by eapply getattr_dir|done]. }
  unfold frame_dict. split; [|split; [|split; [|split; [|split]]]].
  - intros key. rewrite <-Hkeys. split; [|by apply Hsup].
    intros [->|?]%Hsub; done.
  - by rewrite Hsame.
  - intros globs gitems locs litems tr code H1 H2 H3 H4 H5 H6.
    destruct (Hvars globs gitems locs litems tr code H1 H2 H3 H4 H5 H6)
      as (g & l & rt & rc & m1 & m2 & m3 & ? & ? & ? & ? & ? & ? & ? & ?).
    exists g, l, rt, rc, m1, m2, m3. by rewrite !Hsame.
  - intros rp Hrp. rewrite Hsame by done. by apply Hr.
  - by rewrite Hsame.
  - intros a v Ha Hp Hn Hv. rewrite Hsame; [by apply Hraw|].
    intros ->. apply Hn. rewrite !elem_of_cons. tauto.
Qed.

Section FrameWalk.
Variables (hst : host) (hp : heap) (self : Cleaner) (W : nat → Prop).
Hypothesis Hquiet : quiet hp self.
Hypothesis Hclosed : closed hp W.
Variables (stack : nat) (depth : Z) (tail : nat).

Lemma frames_walked_nil prev s :
  truthy hp tail = false →
  frames_walked hst hp self W stack depth tail [] prev s s.
Proof.
  intros Htail. repeat split; try done.
  - intros t Ht. by apply elem_of_nil in Ht.
  - intros l d _ _ _ Hd. exists d. repeat split; try done; auto.
    intros r _ Ht. congruence.
Qed.

(** The walk meets a frame that is memoized: it ties the previous frame to
    what the memo has, and stops. *)
Lemma frames_walked_hit prev s s' r :
  seen s !! tail = Some r →
  seen s' = seen s →
  dcts s' = match prev with
            | Some i => alter (dict_set "f_back" r) i (dcts s)
            | None => dcts s
            end →
  frames_walked hst hp self W stack depth tail [] prev s s'.
Proof.
  intros Hr Hseen Hdcts. repeat split; try done; try (intros; by rewrite Hseen).
  - intros t Ht. by apply elem_of_nil in Ht.
  - intros j _ _ Hj. rewrite Hdcts. destruct prev as [l|]; [|done].
    rewrite lookup_alter_ne; [done|congruence].
  - intros l d -> _ _ Hd. exists (dict_set "f_back" r d).
    rewrite Hdcts, lookup_alter_eq, Hd. split; [done|]. repeat split.
    + intros key Hkey. by apply dict_get_set_ne.
    + intros key Hkey. by apply dict_keys_set in Hkey.
    + intros key Hkey. apply dict_keys_set. by right.
    + done.
    + intros r' _ _ Hr'. rewrite dict_get_set_eq. congruence.
Qed.

Lemma frames_walked_cons fr rest prev s s1 s' d1 :
  is_frame hp W fr (hd tail rest) →
  linked W "f_back" fr prev s s1 →
  dcts s1 !! fr = Some d1 →
  frame_dict hst hp self stack fr depth (<[fr := Mock fr]> (seen s)) d1 (seen s1) →
  frames_walked hst hp self W stack depth tail rest (Some fr) s1 s' →
  fr ∉ rest → ¬ W fr → (∀ l, prev = Some l → l ≠ fr) →
  (∀ r, seen s !! tail = Some r → tail ≠ fr) →
  frames_walked hst hp self W stack depth tail (fr :: rest) prev s s'.
Proof.
  intros (_ & _ & _ & Hback & _) (Lt & Lst & Lseen & Ldcts & Lprev) Hd1 Hfd
    (Wst & Wvis & Wseen & Wdcts & Wframe & Wnext & Wlast & Wprev) Hfr HWfr Hprev Htail.
  assert (seen s' !! fr = Some (Mock fr)) as Hst by (rewrite Wst, Lt; eauto).
  destruct (Wprev fr d1) as (d' & Hd' & Hrel); [done..|].
  repeat split.
  - intros j Hj. rewrite Wst, Lst; [done..|]. by rewrite Lst.
  - intros t' [->|Hin]%elem_of_cons; [done|by apply Wvis].
  - intros j Hj [Hne Hnin]%not_elem_of_cons. by rewrite Wseen, Lseen.
  - intros j Hj [Hne Hnin]%not_elem_of_cons Hp.
    rewrite Wdcts, Ldcts; [done..|congruence].
  - exists d', (seen s1). split; [done|]. split; [|done].
    by eapply frame_dict_relinked.
  - intros [|i] t1 t2 H1 H2; simpl in *; [|by eapply Wnext].
    injection H1 as <-. unfold mock_attr. rewrite Hd'. simpl.
    destruct Hrel as (_ & _ & _ & Hhead & _). apply Hhead. by destruct rest.
  - intros t r Hlast Htruthy Hr. rewrite last_cons in Hlast.
    assert (seen s1 !! tail = Some r) as Hr1 by (rewrite Lst, Hr; eauto).
    destruct (last rest) as [t'|] eqn:Hl.
    + injection Hlast as <-. by eapply Wlast.
    + injection Hlast as <-. apply last_None in Hl as ->.
      unfold mock_attr. rewrite Hd'. simpl.
      destruct Hrel as (_ & _ & _ & _ & Hhit). by apply Hhit.
  - intros l d -> Hl [Hne Hnin]%not_elem_of_cons Hd.
    exists (dict_set "f_back" (Mock fr) d). split.
    { rewrite Wdcts by congruence. rewrite (Lprev l) by done. by rewrite Hd. }
    repeat split.
    + intros key Hkey. by apply dict_get_set_ne.
    + intros key Hkey. by apply dict_keys_set in Hkey.
    + intros key Hkey. apply dict_keys_set. by right.
    + intros t' [= <-]. apply dict_get_set_eq.
    + done.
Qed.

Lemma frame_walk frames : ∀ fuel prev s,
  frames_chain hp W frames tail → NoDup frames →
  Forall (λ t, ¬ W t ∧ seen s !! t = None) frames →
  (∀ l, prev = Some l → l ∉ frames) →
  truthy hp tail = false ∨ is_Some (seen s !! tail) →
  (length frames ≤ fuel)%nat →
  wp (frame_loop hp (clean hst hp self (S stack)) fuel (hd tail frames) prev depth)
     (λ _ s', frames_walked hst hp self W stack depth tail frames prev s s')
     (λ _ _, False) s.
Proof.
  induction frames as [|fr rest IH]; intros fuel prev s Hchain Hdup Hfresh Hprev Hend Hfuel.
  - change (hd tail []) with tail.
    assert (frame_loop hp (clean hst hp self (S stack)) fuel tail prev depth =
            if negb (truthy hp tail) then mret ()
            else memo ← seen_get tail;
                 match memo with
                 | Some r => dct_setitem prev "f_back" r
                 | None => match fuel with
                           | O => diverge
                           | S fuel =>
                               back ← frame_link hp (clean hst hp self (S stack)) tail prev depth;
                               frame_loop hp (clean hst hp self (S stack)) fuel back (Some tail) depth
                           end
                 end) as -> by (by destruct fuel).
    simpl. destruct (truthy hp tail) eqn:Htruthy; simpl.
    + destruct Hend as [?|[r Hr]]; [congruence|].
      apply wp_seen_get. rewrite Hr. unfold wp, dct_setitem.
      destruct prev as [l|]; by eapply frames_walked_hit.
    + apply wp_ret. by apply frames_walked_nil.
  - destruct Hchain as [Hframe Hchain].
    pose proof Hframe as (_ & Htruthy & _).
    apply NoDup_cons in Hdup as [Hnin Hdup].
    apply Forall_cons in Hfresh as [[HWfr Hmemo] Hfresh].
    destruct fuel as [|fuel]; [simpl in Hfuel; lia|].
    simpl. rewrite Htruthy. simpl. apply wp_seen_get. rewrite Hmemo.
    eapply wp_call; [eapply (frame_link_runs hst hp self W Hquiet Hclosed); try done| |done].
    { intros l -> ->. eapply Hprev; [done|]. by left. }
    simpl. intros b s1 (-> & Hlinked & d1 & Hd1 & Hfd).
    pose proof Hlinked as (Lt & Lst & Lseen & Ldcts & Lprev).
    eapply wp_mono; [apply (IH fuel (Some fr) s1)| |done]; try done.
    + apply Forall_forall. intros t' Ht'.
      rewrite Forall_forall in Hfresh. destruct (Hfresh t' Ht') as [HW' Hm'].
      split; [done|]. rewrite Lseen; [done..|]. by intros ->.
    + by intros l [= <-].
    + destruct Hend as [Htail|Htail]; [by left|right]. by rewrite Lst.
    + simpl in Hfuel. lia.
    + simpl. intros _ s' Hwalked. eapply frames_walked_cons; try done.
      * intros l -> ->. eapply Hprev; [done|]. by left.
      * intros r Hr ->. congruence.
Qed.
End FrameWalk.

Lemma NoDup_bounded_length (l : list nat) (n : nat) :
  NoDup l → (∀ x, x ∈ l → (x < n)%nat) → (length l ≤ n)%nat.
Proof.
  intros Hdup Hlt. rewrite <-(length_seq n 0). apply submseteq_length.
  apply NoDup_submseteq; [done|]. intros x Hx. apply elem_of_seq.
  specialize (Hlt x Hx). lia.
Qed.

Lemma frames_chain_elem hp W frames tail fr :
  frames_chain hp W frames tail → fr ∈ frames → ∃ back, is_frame hp W fr back.
Proof.
  induction frames as [|fr' rest IH]; intros Hchain Hin.
  { by apply elem_of_nil in Hin. }
  destruct Hchain as [Hframe Hchain].
  apply elem_of_cons in Hin as [->|Hin]; [eauto|by apply IH].
Qed.

Lemma clean_frames hst hp self (W : nat → Prop) fr0 rest tail stack depth s :
  quiet hp self → closed hp W →
  frames_chain hp W (fr0 :: rest) tail → NoDup (fr0 :: rest) →
  Forall (λ t, ¬ W t ∧ seen s !! t = None) (fr0 :: rest) →
  truthy hp tail = false ∨ is_Some (seen s !! tail) →
  depth ≠ 0%Z →
  ∃ s', clean hst hp self (S (S stack)) fr0 depth s = Ok (Mock fr0) s' ∧
        frames_walked hst hp self W stack (depth - 1) tail (fr0 :: rest) None s s'.
Proof.
  intros Hquiet Hclosed Hchain Hdup Hfresh Hend Hdepth.
  set (frames := fr0 :: rest) in *.
  cut (wp (clean hst hp self (S (S stack)) fr0 depth)
         (λ r s', r = Mock fr0 ∧
                  frames_walked hst hp self W stack (depth - 1) tail frames None s s')
         (λ _ _, False) s).
  { intros (r & s' & Hrun & -> & Hwalked)%wp_returns. eauto. }
  pose proof Hchain as [(Htype & _) _].
  pose proof Hfresh as [[HWfr0 Hmemo0] _]%Forall_cons.
  change (clean hst hp self (S (S stack)) fr0 depth)
    with (clean_body hst hp self (clean hst hp self (S stack)) fr0 depth).
  unfold clean_body. apply wp_seen_get. rewrite Hmemo0.
  apply wp_try. unfold clean_dispatch.
  destruct (decide (depth - 1 = -1)%Z) as [|_]; [lia|].
  rewrite Htype. simpl. unfold clean_traceback_types. rewrite Htype. simpl.
  eapply wp_call;
    [apply (frame_walk hst hp self W Hquiet Hclosed stack (depth - 1) tail frames);
     try done| |done].
  { apply NoDup_bounded_length; [done|]. intros fr Hfr.
    destruct (frames_chain_elem _ _ _ _ _ Hchain Hfr) as (back & _ & Htruthy & _).
    by apply truthy_lt. }
  simpl. intros _ s1 Hwalked. unfold seen_item. apply wp_seen_get.
  pose proof Hwalked as (_ & Hvis & _).
  rewrite (Hvis fr0) by (by left). by apply wp_ret.
Qed.

Lemma clean_returns_run hst hp self (W : nat → Prop) stack obj depth s :
  quiet hp self → closed hp W → W obj →
  wp (clean hst hp self (S stack) obj depth)
     (λ r s', step_rel W s s' ∧ seen s' !! obj = Some r ∧
              cleaned_at hst hp self stack (seen s) obj depth r (seen s'))
     (λ _ _, False) s.
Proof.
  intros Hq Hc HW. apply (wp_clean hst hp self W Hq Hc); [done|].
  intros r s' Hs Hr Hrun. split; [done|]. split; [done|]. by exists s, s'.
Qed.

Lemma clean_code hst hp self (W : nat → Prop) c stack depth s :
  quiet hp self → closed hp W → is_code hp W c → ¬ W c →
  seen s !! c = None → depth ≠ 0%Z →
  ∃ s', clean hst hp self (S (S stack)) c depth s = Ok (Mock c) s' ∧
        seen s' !! c = Some (Mock c) ∧
        (∀ j, is_Some (seen s !! j) → seen s' !! j = seen s !! j) ∧
        (∀ j, ¬ W j → j ≠ c → same_at j s s') ∧
        ∃ d, dcts s' !! c = Some d ∧
             code_dict hst hp self stack c (depth - 1) (seen s) d (seen s').
Proof.
  intros Hquiet Hclosed (Htype & Hobs & (consts & Hconsts & HWconsts)
                         & (filename & path & Hfilename & Hpath)) HWc Hmemo Hdepth.
  cut (wp (clean hst hp self (S (S stack)) c depth)
         (λ r s', r = Mock c ∧ seen s' !! c = Some (Mock c) ∧
            (∀ j, is_Some (seen s !! j) → seen s' !! j = seen s !! j) ∧
            (∀ j, ¬ W j → j ≠ c → same_at j s s') ∧
            ∃ d, dcts s' !! c = Some d ∧
                 code_dict hst hp self stack c (depth - 1) (seen s) d (seen s'))
         (λ _ _, False) s).
  { intros (r & s' & Hrun & -> & Hrest)%wp_returns. eauto. }
  change (clean hst hp self (S (S stack)) c depth)
    with (clean_body hst hp self (clean hst hp self (S stack)) c depth).
  unfold clean_body. apply wp_seen_get. rewrite Hmemo.
  apply wp_try. unfold clean_dispatch.
  destruct (decide (depth - 1 = -1)%Z) as [|_]; [lia|].
  rewrite Htype. simpl. unfold clean_traceback_types. rewrite Htype. simpl.
  destruct (observable_repr hp c Hobs) as [rp Hrp]. rewrite Hrp.
  apply wp_lift; [|done]. intros ? [= <-].
  apply wp_dct_new. intros s1 Hseen1 Hdcts1.
  apply wp_seen_set. intros s2 Hseen2 Hdcts2.
  set (d2 := mock_dict rp (FromImport "types" "CodeType")).
  assert (dcts s2 !! c = Some d2) as Hd2.
  { by rewrite Hdcts2, Hdcts1, lookup_insert_eq. }
  eapply wp_call; [eapply (update_raw_values hp c "co_" _ s2 d2); [|done]| |done].
  { intros a Ha. by apply observable_getattr. }
  simpl. intros _ s3 (Hseen3 & Hother3 & d3 & Hd3 & Hkeys3 & Hvals3 & Hkeep3).
  rewrite Hconsts. apply wp_lift; [|done]. intros ? [= <-].
  eapply wp_call; [by apply (clean_returns_run hst hp self W)| |done]. simpl.
  intros r s4 ([Hst4 Hout4] & _ & Hrun).
  apply wp_dct_setitem. intros s5 Hseen5 Hdcts5.
  rewrite Hfilename. apply wp_lift; [|done]. intros ? [= <-].
  rewrite Hpath. apply wp_lift; [|done]. intros ? [= <-].
  apply wp_dct_setitem. intros s6 Hseen6 Hdcts6. apply wp_ret.
  assert (seen s3 = <[c := Mock c]> (seen s)) as Hs3 by congruence.
  destruct (Hout4 c HWc) as [Hsc Hdc].
  split; [done|]. split; [|split; [|split]].
  - by rewrite Hseen6, Hseen5, Hsc, Hs3, lookup_insert_eq.
  - intros j Hj. rewrite Hseen6, Hseen5, Hst4; rewrite Hs3, lookup_insert_ne;
      try done; intros ->; rewrite Hmemo in Hj; by destruct Hj.
  - intros j Hj Hne. destruct (Hout4 j Hj) as [Hsj Hdj]. split.
    + by rewrite Hseen6, Hseen5, Hsj, Hs3, lookup_insert_ne.
    + rewrite Hdcts6, lookup_alter_ne, Hdcts5, lookup_alter_ne, Hdj, Hother3 by done.
      by rewrite Hdcts2, Hdcts1, lookup_insert_ne.
  - eexists. split.
    { rewrite Hdcts6, lookup_alter_eq, Hdcts5, lookup_alter_eq, Hdc, Hd3.
      reflexivity. }
    unfold code_dict. split; [|split; [|split; [|split; [|split]]]].
    + intros key. rewrite !dict_keys_set, Hkeys3.
      pose proof (getattr_dir _ _ _ _ Hconsts) as Hi1.
      pose proof (getattr_dir _ _ _ _ Hfilename) as Hi2.
      unfold d2, mock_dict, dict_keys. simpl. rewrite !elem_of_cons, elem_of_nil.
      clear -Hi1 Hi2. naive_solver.
    + intros rp' Hrp'. rewrite !dict_get_set_ne by done.
      rewrite Hkeep3 by (by intros [_ ?]). unfold d2. simpl. congruence.
    + rewrite !dict_get_set_ne by done.
      by rewrite Hkeep3 by (by intros [_ ?]).
    + intros ? Hx. rewrite Hconsts in Hx. injection Hx as <-. exists r.
      rewrite dict_get_set_ne, dict_get_set_eq by done.
      split; [done|]. by rewrite Hseen6, Hseen5, <-Hs3.
    + intros ? ? Hx Hy. rewrite Hfilename in Hx. injection Hx as <-.
      rewrite Hpath in Hy. injection Hy as <-. apply dict_get_set_eq.
    + intros a v Ha Hp Hn1 Hn2 Hg. rewrite !dict_get_set_ne by done.
      by apply Hvals3.
Qed.

(** The frame walk has no bound of its own: cleaning a frame (at a depth
    that is not exhausted) resolves every frame of its [f_back] chain,
    whatever [self.limit] is.  Each frame is memoized as its mock, whose
    [f_back] is the mock of its caller; when the chain runs into a frame
    that is memoized already, the last frame is tied to what the memo has
    for it.  Nothing outside [W] and the chain is touched. *)
Theorem frame_walk_ignores_limit hst hp self (W : nat → Prop)
    fr0 rest tail stack depth s :
  quiet hp self → closed hp W →
  frames_chain hp W (fr0 :: rest) tail → NoDup (fr0 :: rest) →
  Forall (λ t, ¬ W t ∧ seen s !! t = None) (fr0 :: rest) →
  truthy hp tail = false ∨ is_Some (seen s !! tail) →
  depth ≠ 0%Z →
  ∃ s', clean hst hp self (S (S stack)) fr0 depth s = Ok (Mock fr0) s' ∧
        (∀ t, t ∈ fr0 :: rest → seen s' !! t = Some (Mock t)) ∧
        (∀ i t t', (fr0 :: rest) !! i = Some t → (fr0 :: rest) !! S i = Some t' →
           mock_attr s' t "f_back" = Some (Mock t')) ∧
        (∀ t r, last (fr0 :: rest) = Some t → truthy hp tail = true →
           seen s !! tail = Some r → mock_attr s' t "f_back" = Some r) ∧
        (∀ j, ¬ W j → j ∉ fr0 :: rest → same_at j s s').
Proof.
  intros Hquiet Hclosed Hchain Hdup Hfresh Hend Hdepth.
  destruct (clean_frames hst hp self W fr0 rest tail stack depth s)
    as (s' & Hrun & _ & Hvis & Hseen & Hdcts & _ & Hnext & Hlast & _); try done.
  exists s'. repeat split; try done.
  - by apply Hseen.
  - by apply Hdcts.
Qed.

(** Witness: frame 5 of the crash snapshot, whose caller is frame 4, cleaned
    with [limit = 1]: both frames are resolved. *)
Lemma frame_walk_ignores_limit_witness :
  ∃ s', clean a_host crash_heap (Cleaner_init a_host None (Some 1%Z)) 2 5 3%Z empty_state
          = Ok (Mock 5) s' ∧
        (∀ t, t ∈ [5; 4] → seen s' !! t = Some (Mock t)) ∧
        (∀ i t t', [5; 4] !! i = Some t → [5; 4] !! S i = Some t' →
           mock_attr s' t "f_back" = Some (Mock t')) ∧
        (∀ t r, last [5; 4] = Some t → truthy crash_heap 0 = true →
           seen empty_state !! 0 = Some r → mock_attr s' t "f_back" = Some r) ∧
        (∀ j, ¬ (j ∉ [1; 2; 3; 4; 5]) → j ∉ [5; 4] → same_at j empty_state s').
Proof.
  apply (frame_walk_ignores_limit a_host crash_heap
           (Cleaner_init a_host None (Some 1%Z)) (λ i, i ∉ [1; 2; 3; 4; 5])
           5 [4] 0 0 3%Z empty_state).
  - by apply quiet_heap_quiet.
  - by apply closed_outside_closed.
  - repeat split; try reflexivity;
      repeat (eexists; try (split; [reflexivity|]));
      repeat constructor; simpl; try (eexists; reflexivity);
      apply (bool_decide_unpack _); by vm_compute.
  - apply (bool_decide_unpack _). by vm_compute.
  - apply (bool_decide_unpack _). by vm_compute.
  - by left.
  - done.
Defined.

(** [cleaned_at] pins the call: on a memoized object it is the memo entry
    that comes back, and the memo stays. *)
Lemma cleaned_at_memo hst hp self stack m v depth r m' r0 :
  cleaned_at hst hp self stack m v depth r m' → m !! v = Some r0 →
  r = r0 ∧ m' = m.
Proof.
  intros (sa & sb & <- & <- & Hrun) Hmemo. simpl in Hrun.
  unfold clean_body, mbind, M_bind, bind, seen_get in Hrun.
  rewrite Hmemo in Hrun. by injection Hrun as <- <-.
Qed.

(** With [depth = 0], on an object that is not memoized, it is the [repr]
    text. *)
Lemma cleaned_at_exhausted hst hp self stack m v r m' rp :
  cleaned_at hst hp self stack m v 0 r m' → m !! v = None → repr hp v = Val rp →
  r = Text rp ∧ m' = <[v := Text rp]> m.
Proof.
  intros (sa & sb & <- & <- & Hrun) Hmemo Hrepr.
  rewrite (exhausted_depth_gives_text hst hp self stack v sa rp) in Hrun by done.
  by injection Hrun as <- <-.
Qed.

(** What the mocks of the resolved frames hold ([frames_resolved],
    [frame_dict]).  The frames are resolved in the order of the chain.  The
    mock of each holds, beside [_repr] (the [repr] text of the frame) and
    [_mock] (the reference to [types.FrameType]), exactly the names of
    [dir(frame)] that start with [f_], and [f_builtins]; [f_builtins] is a
    reference to import; [f_globals] has the items whose name does not start
    with a double underscore; the values of [f_globals], then those of
    [f_locals], then [f_trace] are what [clean] returns for them with the
    depth of the frame, and [f_code], cleaned last, what it returns with that
    depth plus one; every other [f_] attribute but [f_back] (the line number,
    say) is the live value, by reference. *)
Theorem frame_attributes_follow_policy hst hp self (W : nat → Prop)
    fr0 rest tail stack depth s :
  quiet hp self → closed hp W →
  frames_chain hp W (fr0 :: rest) tail → NoDup (fr0 :: rest) →
  Forall (λ t, ¬ W t ∧ seen s !! t = None) (fr0 :: rest) →
  truthy hp tail = false ∨ is_Some (seen s !! tail) →
  depth ≠ 0%Z →
  ∃ s', clean hst hp self (S (S stack)) fr0 depth s = Ok (Mock fr0) s' ∧
        frames_resolved hst hp self stack (depth - 1) s' (seen s) (fr0 :: rest).
Proof.
  intros Hquiet Hclosed Hchain Hdup Hfresh Hend Hdepth.
  destruct (clean_frames hst hp self W fr0 rest tail stack depth s)
    as (s' & Hrun & _ & _ & _ & _ & Hdict & _); try done.
  by exists s'.
Qed.

(** Witness: frame 5 of the crash snapshot and its caller, frame 4. *)
Lemma frame_attributes_follow_policy_witness :
  ∃ s', clean a_host crash_heap (Cleaner_init a_host None None) 2 5 3%Z empty_state
          = Ok (Mock 5) s' ∧
        frames_resolved a_host crash_heap (Cleaner_init a_host None None) 0
          (3 - 1)%Z s' (seen empty_state) [5; 4].
Proof.
  apply (frame_attributes_follow_policy a_host crash_heap
           (Cleaner_init a_host None None) (λ i, i ∉ [1; 2; 3; 4; 5])
           5 [4] 0 0 3%Z empty_state).
  - by apply quiet_heap_quiet.
  - by apply closed_outside_closed.
  - repeat split; try reflexivity;
      repeat (eexists; try (split; [reflexivity|]));
      repeat constructor; simpl; try (eexists; reflexivity);
      apply (bool_decide_unpack _); by vm_compute.
  - apply (bool_decide_unpack _). by vm_compute.
  - apply (bool_decide_unpack _). by vm_compute.
  - by left.
  - done.
Defined.

(** A code object that is not memoized, cleaned at a depth that is not
    exhausted, becomes a mock ([code_dict]): it holds the [repr] text and the
    spoofed type, exactly the names of [dir(code)] that start with [co_],
    [co_filename] made absolute, and every other [co_] attribute but
    [co_consts] as the live value, by reference.  [co_consts] is what [clean]
    returns for the constants, called once the mock is registered, with the
    depth of the code object plus two.  So when [clean] is called on the code
    object with [depth = -1], the constants are cleaned with an exhausted
    depth: if they are not memoized, [co_consts] is their [repr] text.  Memo
    entries that existed are kept and nothing outside [W] is touched. *)
Theorem code_object_is_mocked hst hp self (W : nat → Prop) c stack depth s :
  quiet hp self → closed hp W → is_code hp W c → ¬ W c →
  seen s !! c = None → depth ≠ 0%Z →
  ∃ s', clean hst hp self (S (S stack)) c depth s = Ok (Mock c) s' ∧
        seen s' !! c = Some (Mock c) ∧
        (∀ j, is_Some (seen s !! j) → seen s' !! j = seen s !! j) ∧
        (∀ j, ¬ W j → j ≠ c → same_at j s s') ∧
        ∃ d, dcts s' !! c = Some d ∧
             code_dict hst hp self stack c (depth - 1) (seen s) d (seen s') ∧
             (depth = (-1)%Z →
              ∀ consts rp,
                getattr hp c "co_consts" = Val consts → consts ≠ c →
                seen s !! consts = None → repr hp consts = Val rp →
                dict_get "co_consts" d = Some (Text rp)).
Proof.
  intros Hquiet Hclosed Hcode HWc Hmemo Hdepth.
  destruct (clean_code hst hp self W c stack depth s)
    as (s' & Hrun & Hc & Hkeep & Hout & d & Hd & Hdict); try done.
  exists s'. repeat (split; [done|]). exists d. repeat (split; [done|]).
  intros -> consts rp Hconsts Hne Hfresh Hrepr.
  destruct Hdict as (_ & _ & _ & Hcc & _).
  destruct (Hcc consts Hconsts) as (r & Hr & Hat).
  apply (cleaned_at_exhausted _ _ _ _ _ _ _ _ rp) in Hat as [-> _]; [done| |done].
  by rewrite lookup_insert_ne.
Qed.

(** Witness: the code object 8 of the crash snapshot, cleaned with
    [depth = -1]. *)
Lemma code_object_is_mocked_witness :
  ∃ s', clean a_host crash_heap (Cleaner_init a_host None None) 2 8 (-1)%Z empty_state
          = Ok (Mock 8) s' ∧
        seen s' !! 8 = Some (Mock 8) ∧
        (∀ j, is_Some (seen empty_state !! j) → seen s' !! j = seen empty_state !! j) ∧
        (∀ j, ¬ (j ∉ [1; 2; 3; 4; 5; 8]) → j ≠ 8 → same_at j empty_state s') ∧
        ∃ d, dcts s' !! 8 = Some d ∧
             code_dict a_host crash_heap (Cleaner_init a_host None None) 0 8 (-1 - 1)%Z
               (seen empty_state) d (seen s') ∧
             ((-1)%Z = (-1)%Z →
              ∀ consts rp,
                getattr crash_heap 8 "co_consts" = Val consts → consts ≠ 8 →
                seen empty_state !! consts = None → repr crash_heap consts = Val rp →
                dict_get "co_consts" d = Some (Text rp)).
Proof.
  apply (code_object_is_mocked a_host crash_heap (Cleaner_init a_host None None)
           (λ i, i ∉ [1; 2; 3; 4; 5; 8]) 8 0 (-1)%Z empty_state).
  - by apply quiet_heap_quiet.
  - by apply closed_outside_closed.
  - repeat split; try reflexivity.
    + eexists. split; [reflexivity|]. apply (bool_decide_unpack _). by vm_compute.
    + by eexists _, _.
  - apply (bool_decide_unpack _). by vm_compute.
  - reflexivity.
  - done.
Defined.

(** ** The frame walk and the frame policy *)

(** C4, counterexample: the crash snapshot cleaned from frame [5] with
    [limit = 1].  The walk resolves two frames, [5] and its caller [4]. *)
Lemma frame_walk_exceeds_limit :
  let self := Cleaner_init a_host None (Some 1%Z) in
  let run := clean a_host crash_heap self 5 5 3%Z empty_state in
  limit self = 1%Z ∧
  memo_of run 5 = Some (Mock 5) ∧ memo_of run 4 = Some (Mock 4).
Proof. vm_compute. done. Qed.

(** C4, amended: [limit] does not bound the walk over a frame chain.  For
    every limit, cleaning a frame (at a depth that is not exhausted, user code
    raising only [Exception]s that can be formatted) resolves every frame of
    its [f_back] chain, up to the frame that is falsy or memoized already, and
    no object outside [W] besides them. *)
Theorem frame_chain_is_resolved_whole hst hp self (W : nat → Prop)
    fr0 rest tail stack depth s :
  quiet hp self → closed hp W →
  frames_chain hp W (fr0 :: rest) tail → NoDup (fr0 :: rest) →
  Forall (λ t, ¬ W t ∧ seen s !! t = None) (fr0 :: rest) →
  truthy hp tail = false ∨ is_Some (seen s !! tail) →
  depth ≠ 0%Z →
  ∃ s', clean hst hp self (S (S stack)) fr0 depth s = Ok (Mock fr0) s' ∧
        Forall (λ t, seen s' !! t = Some (Mock t)) (fr0 :: rest) ∧
        (∀ j, ¬ W j → j ∉ fr0 :: rest → seen s' !! j = seen s !! j).
Proof.
  intros Hquiet Hclosed Hchain Hdup Hfresh Hend Hdepth.
  destruct (clean_frames hst hp self W fr0 rest tail stack depth s)
    as (s' & Hrun & _ & Hvis & Hseen & _); try done.
  exists s'. split; [done|]. split; [|done]. by apply Forall_forall.
Qed.

(** C4, witness: frame [5] of the crash snapshot and its caller, with
    [limit = 1]. *)
Lemma frame_chain_is_resolved_whole_witness :
  ∃ s', clean a_host crash_heap (Cleaner_init a_host None (Some 1%Z)) 2 5 3%Z empty_state
          = Ok (Mock 5) s' ∧
        Forall (λ t, seen s' !! t = Some (Mock t)) [5; 4] ∧
        (∀ j, ¬ (j ∉ [1; 2; 3; 4; 5]) → j ∉ [5; 4] →
           seen s' !! j = seen empty_state !! j).
Proof.
  apply (frame_chain_is_resolved_whole a_host crash_heap
           (Cleaner_init a_host None (Some 1%Z)) (λ i, i ∉ [1; 2; 3; 4; 5])
           5 [4] 0 0 3%Z empty_state).
  - by apply quiet_heap_quiet.
  - by apply closed_outside_closed.
  - repeat split; try reflexivity;
      repeat (eexists; try (split; [reflexivity|]));
      repeat constructor; simpl; try (eexists; reflexivity);
      apply (bool_decide_unpack _); by vm_compute.
  - apply (bool_decide_unpack _). by vm_compute.
  - apply (bool_decide_unpack _). by vm_compute.
  - by left.
  - done.
Defined.

(** C7, counterexample: frame [4] of the crash snapshot cleaned with
    [depth = 1].  Its trace hook ([None]) is cleaned with the depth of the
    frame, which is exhausted, and comes back as text; its code object is
    cleaned one level deeper and comes back as a mock. *)
Lemma frame_code_is_cleaned_deeper_than_trace_hook :
  let run := clean a_host crash_heap (Cleaner_init a_host None None) 5 4 1%Z empty_state in
  attr_of run 4 "f_trace" = Some (Text "None") ∧
  attr_of run 4 "f_code" = Some (Mock 8).
Proof. vm_compute. done. Qed.

(** C7, amended.  The mock of a cleaned frame holds, beside [_repr] and
    [_mock], exactly the names of [dir(frame)] that start with [f_], and
    [f_builtins], a reference to import; the globals whose name starts with a
    double underscore are left out; the values of the globals, of the locals
    and the trace hook are what [clean] returns for them with the depth of the
    frame, but the code object is cleaned with that depth plus one.  The mock
    of a cleaned code object holds the constants as [clean] returns them with
    the depth of the code object plus two. *)
Theorem frame_policy_cleans_code_one_deeper hst hp self stack
    (W W' : nat → Prop) fr0 rest tail depth s c depth' sc :
  quiet hp self → closed hp W → closed hp W' →
  frames_chain hp W (fr0 :: rest) tail → NoDup (fr0 :: rest) →
  Forall (λ t, ¬ W t ∧ seen s !! t = None) (fr0 :: rest) →
  truthy hp tail = false ∨ is_Some (seen s !! tail) → depth ≠ 0%Z →
  is_code hp W' c → ¬ W' c → seen sc !! c = None → depth' ≠ 0%Z →
  (∃ s' d m',
     clean hst hp self (S (S stack)) fr0 depth s = Ok (Mock fr0) s' ∧
     dcts s' !! fr0 = Some d ∧
     frame_dict hst hp self stack fr0 (depth - 1) (<[fr0 := Mock fr0]> (seen s)) d m') ∧
  (∃ sc' d,
     clean hst hp self (S (S stack)) c depth' sc = Ok (Mock c) sc' ∧
     dcts sc' !! c = Some d ∧
     code_dict hst hp self stack c (depth' - 1) (seen sc) d (seen sc')).
Proof.
  intros Hquiet Hclosed Hclosed' Hchain Hdup Hfresh Hend Hdepth Hcode HWc Hmemo Hdepth'.
  split.
  - destruct (clean_frames hst hp self W fr0 rest tail stack depth s)
      as (s' & Hrun & _ & _ & _ & _ & (d & m' & Hd & Hdict & _) & _); try done.
    by exists s', d, m'.
  - destruct (clean_code hst hp self W' c stack depth' sc)
      as (sc' & Hrun & _ & _ & _ & d & Hd & Hdict); try done.
    by exists sc', d.
Qed.

(** C7, witness: frame [5] of the crash snapshot, and its code object [8]. *)
Lemma frame_policy_cleans_code_one_deeper_witness :
  (∃ s' d m',
     clean a_host crash_heap (Cleaner_init a_host None None) 2 5 3%Z empty_state
       = Ok (Mock 5) s' ∧
     dcts s' !! 5 = Some d ∧
     frame_dict a_host crash_heap (Cleaner_init a_host None None) 0 5 (3 - 1)%Z
       (<[5 := Mock 5]> (seen empty_state)) d m') ∧
  (∃ sc' d,
     clean a_host crash_heap (Cleaner_init a_host None None) 2 8 3%Z empty_state
       = Ok (Mock 8) sc' ∧
     dcts sc' !! 8 = Some d ∧
     code_dict a_host crash_heap (Cleaner_init a_host None None) 0 8 (3 - 1)%Z
       (seen empty_state) d (seen sc')).
Proof.
  apply (frame_policy_cleans_code_one_deeper a_host crash_heap
           (Cleaner_init a_host None None) 0
           (λ i, i ∉ [1; 2; 3; 4; 5]) (λ i, i ∉ [1; 2; 3; 4; 5; 8])
           5 [4] 0 3%Z empty_state 8 3%Z empty_state).
  - by apply quiet_heap_quiet.
  - by apply closed_outside_closed.
  - by apply closed_outside_closed.
  - repeat split; try reflexivity;
      repeat (eexists; try (split; [reflexivity|]));
      repeat constructor; simpl; try (eexists; reflexivity);
      apply (bool_decide_unpack _); by vm_compute.
  - apply (bool_decide_unpack _). by vm_compute.
  - apply (bool_decide_unpack _). by vm_compute.
  - by left.
  - done.
  - repeat split; try reflexivity.
    + eexists. split; [reflexivity|]. apply (bool_decide_unpack _). by vm_compute.
    + by eexists _, _.
  - apply (bool_decide_unpack _). by vm_compute.
  - reflexivity.
  - done.
Defined.

(** ** The memo *)

(** The first representation of an object is the one that stays: a run of
    [clean] that returns leaves every memo entry it found as it was, has
    memoized what it returns, and cleaning the same object again, at whatever
    depth, returns that same representation and changes nothing. *)
Theorem cleaning_again_gives_the_same hst hp self stack obj depth s r s' :
  clean hst hp self stack obj depth s = Ok r s' →
  (∀ j rj, seen s !! j = Some rj → seen s' !! j = Some rj) ∧
  seen s' !! obj = Some r ∧
  ∀ stack' depth', clean hst hp self (S stack') obj depth' s' = Ok r s'.
Proof.
  intros Hrun. destruct stack as [|stack]; [done|].
  pose proof (clean_sound hst hp self (λ _, True) (S stack) obj depth s) as Hs.
  unfold wp in Hs. rewrite Hrun in Hs.
  destruct Hs as [[Hkeep _] Hmemo]; [done..|].
  split; [|split; [done|]].
  - intros j rj Hj. rewrite Hkeep; [done|by rewrite Hj].
  - intros stack' depth'. simpl.
    unfold clean_body, mbind, M_bind, bind, seen_get. by rewrite Hmemo.
Qed.

(** Witness: the integer [7] of the crash snapshot, cleaned at depth 3 and
    then again. *)
Lemma cleaning_again_gives_the_same_witness :
  (∀ j rj, seen empty_state !! j = Some rj →
           seen (State {[7 := Original 7]} ∅) !! j = Some rj) ∧
  seen (State {[7 := Original 7]} ∅) !! 7 = Some (Original 7) ∧
  ∀ stack' depth',
    clean a_host crash_heap (Cleaner_init a_host None None) (S stack') 7 depth'
      (State {[7 := Original 7]} ∅) = Ok (Original 7) (State {[7 := Original 7]} ∅).
Proof.
  apply (cleaning_again_gives_the_same a_host crash_heap
           (Cleaner_init a_host None None) 3 7 3%Z empty_state).
  reflexivity.
Defined.

(** ** A negative limit *)

(** A negative [limit] makes the traceback loop run no iteration at all:
    nothing is memoized for the traceback, [self.seen[obj_id]] raises
    [KeyError], and [clean] returns, and memoizes, the failure text built
    from that error, whatever the pickler is.  Nothing else changes. *)
Theorem negative_limit_fails_the_traceback hst hp dumps l stack obj depth s :
  (l < 0)%Z → type hp obj = TracebackType → depth ≠ 0%Z → seen s !! obj = None →
  let text := Text ("Failed to serialize object: " +:+ pretty obj) in
  clean hst hp (Cleaner_init hst dumps (Some l)) (S stack) obj depth s =
    Ok text (State (<[obj := text]> (seen s)) (dcts s)).
Proof.
  intros Hl Htype Hdepth Hmemo. simpl.
  unfold clean_body, mbind, M_bind, bind, seen_get, try_except. rewrite Hmemo.
  unfold clean_dispatch. destruct (decide (depth - 1 = -1)%Z) as [|_]; [lia|].
  rewrite Htype. simpl. unfold clean_traceback_types. rewrite Htype. simpl.
  destruct (decide (l = 0%Z)) as [|_]; [lia|].
  replace (Z.to_nat l) with 0 by lia. simpl.
  unfold seen_item, mbind, M_bind, bind, seen_get. simpl. by rewrite Hmemo.
Qed.

(** Witness: the crash snapshot's traceback [1], with [limit = -1]. *)
Lemma negative_limit_fails_the_traceback_witness :
  clean a_host crash_heap (Cleaner_init a_host None (Some (-1)%Z)) 5 1 3%Z empty_state =
    Ok (Text "Failed to serialize object: 1")
       (State {[1 := Text "Failed to serialize object: 1"]} ∅).
Proof.
  apply (negative_limit_fails_the_traceback a_host crash_heap None (-1)%Z 4 1 3%Z
           empty_state); done.
Defined.
